(** * fs-tree-diff: the entry model, the patch calculator and the tree container

    A shallow embedding of [lib/entry.js] and [lib/index.js].

    - JavaScript strings are modelled by [string]; the relational operators
      [<] and [>] on strings compare code units lexicographically, which is
      [String.ltb].
    - [mode], [size] and [mtime] are integers ([Z]); [+mtime] is then the
      identity and [&] on the low sixteen bits is [Z.land].  Entries whose
      size or mtime is not such a number ([undefined], [NaN]) are the matter
      of module [Untyped], which agrees with this model on the others.
    - Entry objects handed to the patch calculator are only read, so the
      calculator works on entry values.  The tree container mutates entry
      objects ([entry.checksum = ...]) that are shared between [entries] and
      the change log, so it works on references into a store of objects. *)

From Stdlib Require Import ZArith String Ascii List Bool Lia.
From stdpp Require Import base option list gmap strings.

Local Open Scope string_scope.
Local Open Scope list_scope.
Local Open Scope Z_scope.

(** ** Strings: the order used by [<] and [>] *)

Module JsString.

Definition lt (a b : string) : bool := String.ltb a b.
Definition gt (a b : string) : bool := String.ltb b a.

(** [s.charAt(i)]: the one-character string at [i], or the empty string. *)
Definition charAt (s : string) (i : Z) : string :=
  if i <? 0 then ""
  else match String.get (Z.to_nat i) s with
       | Some c => String c ""
       | None => ""
       end.

(** [d] is a proper prefix of [p]: [p] lies strictly below the path [d]. *)
Definition strict_prefix (d p : string) : Prop :=
  String.prefix d p = true /\ d <> p.

End JsString.

(** ** lib/entry.js *)

Definition DIRECTORY_MODE : Z := 16877.

Record Entry : Type := mkEntry {
  relativePath : string;
  mode : Z;
  size : Z;
  mtime : Z;
  checksum : option string
}.

(** [new Entry(relativePath, size, mtime, checksum)] *)
Definition new_Entry (relativePath : string) (size mtime : Z)
    (checksum : option string) : Entry :=
  let isDirectory :=
    String.eqb
      (JsString.charAt relativePath (Z.of_nat (String.length relativePath) - 1))
      "/" in
  {| relativePath := relativePath;
     mode := if isDirectory then DIRECTORY_MODE else 0;
     size := size;
     mtime := mtime;
     checksum := checksum |}.

Definition isDirectory (entry : Entry) : bool :=
  Z.land (mode entry) 61440 =? 16384.

Definition isFile (entry : Entry) : bool := negb (isDirectory entry).

(** [entry] after [entry.checksum = c]. *)
Definition with_checksum (c : option string) (entry : Entry) : Entry :=
  mkEntry (relativePath entry) (mode entry) (size entry) (mtime entry) c.

(** ** Commands: the arrays [[operation, relativePath, entry]] *)

Inductive Operation : Type := create | change | unlink | mkdir | rmdir.

Definition Command (E : Type) : Type := (Operation * string * E)%type.

Definition cmd_op {E} (c : Command E) : Operation := fst (fst c).
Definition cmd_path {E} (c : Command E) : string := snd (fst c).
Definition cmd_entry {E} (c : Command E) : E := snd c.

Definition addCommand (entry : Entry) : Command Entry :=
  (if isDirectory entry then mkdir else create, relativePath entry, entry).

Definition removeCommand (entry : Entry) : Command Entry :=
  (if isDirectory entry then rmdir else unlink, relativePath entry, entry).

Definition updateCommand (entry : Entry) : Command Entry :=
  (change, relativePath entry, entry).

Definition isRemoval {E} (c : Command E) : bool :=
  match cmd_op c with
  | unlink | rmdir => true
  | _ => false
  end.

(** ** Exceptions and values *)

(** The calls made to [fs], with their arguments (the [options] handed
    through to [fs.writeFileSync] and the encoding of [fs.readFileSync], always
    ['UTF8'], are left out). *)
Inductive FsCall : Type :=
| FsUnlinkSync (path : string)
| FsRmdirSync (path : string)
| FsMkdirSync (path : string)
| FsWriteFileSync (path content : string)
| FsReadFileSync (path : string).

(** What can be thrown: [new Error(message)], [new TypeError(message)], the
    type error the engine raises when [property] of [null] or [undefined] is
    read or written, and whatever a failing file-system call throws. *)
Inductive Exn : Type :=
| Error (message : string)
| TypeError (message : string)
| NullPropertyAccess (property : string)
| FsError (call : FsCall).

Inductive Outcome (A : Type) : Type :=
| Return (a : A)
| Throw (e : Exn).
Arguments Return {A} a.
Arguments Throw {A} e.

(** The values a caller can pass where a function is expected. *)
Inductive Value : Type :=
| VUndefined
| VNull
| VBoolean (b : bool)
| VNumber (n : Z)
| VString (s : string)
| VObject
| VFunction (f : Entry -> Entry -> bool).

Definition typeof (v : Value) : string :=
  match v with
  | VUndefined => "undefined"
  | VNull => "object"
  | VBoolean _ => "boolean"
  | VNumber _ => "number"
  | VString _ => "string"
  | VObject => "object"
  | VFunction _ => "function"
  end.

(** ** The patch calculator *)

(** The call to the logger on unequal entries has no part in the result. *)
Definition defaultIsEqual (entryA entryB : Entry) : bool :=
  if isDirectory entryA && isDirectory entryB then true
  else
    (size entryA =? size entryB) &&
    (mtime entryA =? mtime entryB) &&
    (mode entryA =? mode entryB).

(** The state of the merge: the part of [ours] from [i] on, the part of
    [theirs] from [j] on, and the two output buffers. *)
Definition MergeState : Type :=
  (list Entry * list Entry * list (Command Entry) * list (Command Entry))%type.

(** [while (i < ours.length && j < theirs.length) { ... }] *)
Fixpoint while_loop (isEqual : Entry -> Entry -> bool) (ours : list Entry)
    {struct ours}
  : list Entry -> list (Command Entry) -> list (Command Entry) -> MergeState :=
  match ours with
  | [] => fun theirs operations removals => ([], theirs, operations, removals)
  | x :: ours' =>
      fix scan (theirs : list Entry)
          (operations removals : list (Command Entry)) {struct theirs}
        : MergeState :=
        match theirs with
        | [] => (x :: ours', [], operations, removals)
        | y :: theirs' =>
            if JsString.lt (relativePath x) (relativePath y) then
              let command := removeCommand x in
              if isDirectory x then
                while_loop isEqual ours' theirs operations (removals ++ [command])
              else
                while_loop isEqual ours' theirs (operations ++ [command]) removals
            else if JsString.gt (relativePath x) (relativePath y) then
              scan theirs' (operations ++ [addCommand y]) removals
            else
              if negb (isEqual x y) then
                let command := updateCommand y in
                if isDirectory x then
                  while_loop isEqual ours' theirs' operations (removals ++ [command])
                else
                  while_loop isEqual ours' theirs' (operations ++ [command]) removals
              else
                while_loop isEqual ours' theirs' operations removals
        end
  end.

(** [for (; i < ours.length; i++) removals.push(removeCommand(ours[i]))] *)
Fixpoint cleanup_ours (ours : list Entry) (removals : list (Command Entry))
  : list (Command Entry) :=
  match ours with
  | [] => removals
  | x :: ours' => cleanup_ours ours' (removals ++ [removeCommand x])
  end.

(** [for (; j < theirs.length; j++) operations.push(addCommand(theirs[j]))] *)
Fixpoint cleanup_theirs (theirs : list Entry) (operations : list (Command Entry))
  : list (Command Entry) :=
  match theirs with
  | [] => operations
  | y :: theirs' => cleanup_theirs theirs' (operations ++ [addCommand y])
  end.

(** The body of [calculatePatch] once [isEqual] is settled. *)
Definition patch (isEqual : Entry -> Entry -> bool) (ours theirs : list Entry)
  : list (Command Entry) :=
  let '(ours_left, theirs_left, operations, removals) :=
    while_loop isEqual ours theirs [] [] in
  let removals := cleanup_ours ours_left removals in
  let operations := cleanup_theirs theirs_left operations in
  operations ++ rev removals.

(** [calculatePatch(otherFSTree, isEqual)]: [ours] is [this.entries], [theirs]
    is [otherFSTree.entries].  [isEqual] is [None] for a call with a single
    argument ([arguments.length] is 1 and the parameter reads [undefined]) and
    [Some v] when a second argument [v] is passed. *)
Definition calculatePatch (ours theirs : list Entry) (isEqual : option Value)
  : Outcome (list (Command Entry)) :=
  let arguments_length : Z := if isEqual is Some _ then 2 else 1 in
  let isEqual : Value := default VUndefined isEqual in
  if (1 <? arguments_length) && negb (String.eqb (typeof isEqual) "function")
  then Throw (TypeError "calculatePatch's second argument must be a function")
  else
    let isEqual : Entry -> Entry -> bool :=
      match isEqual with
      | VFunction f => f
      | _ => defaultIsEqual
      end in
    Return (patch isEqual ours theirs).

(** ** The tree container *)

Definition ARBITRARY_START_OF_TIME : Z := 0.

(** The entries [FSTree.fromPaths(paths)] builds, before the constructor
    checks or sorts them. *)
Definition fromPaths (paths : list string) : list Entry :=
  map (fun path => new_Entry path 0 ARBITRARY_START_OF_TIME None) paths.

(** A reference to an entry object, or [null]. *)
Inductive Ref : Type := null | ref (address : nat).

Inductive Lifecycle : Type := STARTED | STOPPED.

(** What [findByRelativePath] returns: [{ entry: ..., index: ... }]. *)
Record Result : Type := mkResult {
  entry : Ref;
  index : Z
}.

(** An [FSTree] object together with the part of the world it acts on: the
    store of entry objects its references point into, and the file-system
    calls issued so far (oldest first). *)
Record State : Type := mkState {
  store : list Entry;
  entries : list Ref;
  root : string;
  _changes : list (Command Ref);
  _relativePathToChange : gmap string nat;
  _state : Lifecycle;
  calls : list FsCall
}.

Definition set_store (h : list Entry) (s : State) : State :=
  mkState h (entries s) (root s) (_changes s) (_relativePathToChange s)
          (_state s) (calls s).
Definition set_entries (l : list Ref) (s : State) : State :=
  mkState (store s) l (root s) (_changes s) (_relativePathToChange s)
          (_state s) (calls s).
Definition set_changes (c : list (Command Ref)) (m : gmap string nat)
    (s : State) : State :=
  mkState (store s) (entries s) (root s) c m (_state s) (calls s).
Definition set_state (l : Lifecycle) (s : State) : State :=
  mkState (store s) (entries s) (root s) (_changes s) (_relativePathToChange s)
          l (calls s).
Definition set_calls (c : list FsCall) (s : State) : State :=
  mkState (store s) (entries s) (root s) (_changes s) (_relativePathToChange s)
          (_state s) c.

(** Reading through a reference; [None] stands for [null] or [undefined],
    on which every property access raises a type error. *)
Definition deref (h : list Entry) (r : Ref) : option Entry :=
  match r with
  | null => None
  | ref a => h !! a
  end.

(** Statements that may throw and that act on the state.  A [Throw] keeps the
    state reached so far: what was done before the exception stays done. *)
Definition M (A : Type) : Type := State -> Outcome A * State.

Definition ret {A} (a : A) : M A := fun s => (Return a, s).
Definition throw {A} (e : Exn) : M A := fun s => (Throw e, s).
Definition bind {A B} (m : M A) (k : A -> M B) : M B :=
  fun s =>
    match m s with
    | (Return a, s') => k a s'
    | (Throw e, s') => (Throw e, s')
    end.
Definition get : M State := fun s => (Return s, s).
Definition modify (f : State -> State) : M unit := fun s => (Return tt, f s).
Definition lift {A} (o : Outcome A) : M A := fun s => (o, s).

Notation "'do' x <- m ; k" := (bind m (fun x => k))
  (at level 10, x name, m at level 100, k at level 200).
Notation "'run' m ; k" := (bind m (fun _ => k))
  (at level 10, m at level 100, k at level 200).

Section Container.

(** The services the container calls. *)
Variable md5hex : string -> string.
(** [fs history call]: what the file system answers to [call] after the
    calls of [history]; [None] when the call throws. *)
Variable fs : list FsCall -> FsCall -> option string.
(** [Date.now()], read after the calls of the given history. *)
Variable Date_now : list FsCall -> Z.

Definition fs_call (call : FsCall) : M string :=
  fun s =>
    let s' := set_calls (calls s ++ [call]) s in
    match fs (calls s) call with
    | Some answer => (Return answer, s')
    | None => (Throw (FsError call), s')
    end.

(** [new Entry(...)] allocates a fresh object. *)
Definition alloc (e : Entry) : M Ref :=
  fun s => (Return (ref (length (store s))), set_store (store s ++ [e]) s).

(** [r.relativePath] and the like. *)
Definition read {A} (r : Ref) (field : Entry -> A) (name : string) : M A :=
  fun s =>
    match deref (store s) r with
    | Some e => (Return (field e), s)
    | None => (Throw (NullPropertyAccess name), s)
    end.

(** [start()] *)
Definition start : M unit :=
  modify (fun s => set_state STARTED (set_changes [] ∅ s)).

(** [stop()] *)
Definition stop : M unit := modify (set_state STOPPED).

(** The loop of [findByRelativePath], from index [i] on. *)
Fixpoint find_from (h : list Entry) (relativePath' : string) (i : nat)
    (rest : list Ref) : Outcome Result :=
  match rest with
  | [] => Return {| entry := null; index := -1 |}
  | entry :: rest' =>
      match deref h entry with
      | None => Throw (NullPropertyAccess "relativePath")
      | Some e =>
          if String.eqb (relativePath e) relativePath' then
            Return {| entry := entry; index := Z.of_nat i |}
          else find_from h relativePath' (S i) rest'
      end
  end.

Definition findByRelativePath (relativePath : string) : M Result :=
  fun s => (find_from (store s) relativePath 0 (entries s), s).

Definition statSync (relativePath : string) : M Ref :=
  do result <- findByRelativePath relativePath;
  ret (entry result).

Definition _throwIfStopped (operation : string) : M unit :=
  do s <- get;
  match _state s with
  | STOPPED => throw (Error ("NOPE, operation: " ++ operation))
  | STARTED => ret tt
  end.

(** [array[i] = x]: past the end the array grows, the skipped slots are
    holes, which read as [undefined]; [null] stands for them. *)
Definition array_set (i : nat) (x : Ref) (l : list Ref) : list Ref :=
  if (i <? length l)%nat then <[i := x]> l
  else l ++ replicate (i - length l) null ++ [x].

(** [array.splice(i, 0, x)] *)
Definition splice_in (i : nat) (x : Ref) (l : list Ref) : list Ref :=
  take i l ++ x :: drop i l.

Definition _track (operation : Operation) (entry : Ref) : M unit :=
  do relativePath <- read entry relativePath "relativePath";
  do s <- get;
  match _relativePathToChange s !! relativePath with
  | None =>
      modify (set_changes
                (_changes s ++ [(operation, relativePath, entry)])
                (<[relativePath := length (_changes s)]>
                   (_relativePathToChange s)))
  | Some position =>
      match _changes s !! position with
      | None => throw (NullPropertyAccess "0")
      | Some (_, path, _) =>
          modify (set_changes
                    (<[position := (operation, path, entry)]> (_changes s))
                    (_relativePathToChange s))
      end
  end.

(** The scan of [_insertAt], from [position] on; [rest] is what is left of
    [all] from there. *)
Fixpoint insert_scan (h : list Entry) (entry : Ref) (all : list Ref)
    (position : nat) (rest : list Ref) : Outcome (list Ref) :=
  match rest with
  | [] => Return (all ++ [entry])
  | current :: rest' =>
      match deref h current, deref h entry with
      | Some c, Some e =>
          if String.eqb (relativePath c) (relativePath e) then
            Return (array_set position entry all)
          else if JsString.lt (relativePath c) (relativePath e) then
            Return (splice_in position entry all)
          else insert_scan h entry all (S position) rest'
      | _, _ => Throw (NullPropertyAccess "relativePath")
      end
  end.

Definition _insertAt (result : Result) (entry : Ref) : M unit :=
  do s <- get;
  if -1 <? index result then
    modify (set_entries (array_set (Z.to_nat (index result)) entry (entries s)))
  else
    do entries' <- lift (insert_scan (store s) entry (entries s) 0 (entries s));
    modify (set_entries entries').

Definition unlinkSync (relativePath : string) : M unit :=
  run _throwIfStopped "unlink";
  do result <- findByRelativePath relativePath;
  let entry := entry result in
  do s <- get;
  run fs_call (FsUnlinkSync (root s ++ "/" ++ relativePath));
  run _track unlink entry;
  _insertAt result entry.

Definition rmdirSync (relativePath : string) : M unit :=
  run _throwIfStopped "rmdir";
  do result <- findByRelativePath relativePath;
  let entry := entry result in
  do s <- get;
  run fs_call (FsRmdirSync (root s ++ "/" ++ relativePath));
  run _track rmdir entry;
  _insertAt result entry.

Definition mkdirSync (relativePath : string) : M unit :=
  run _throwIfStopped "mkdir";
  do result <- findByRelativePath relativePath;
  let entry := entry result in
  do s <- get;
  run fs_call (FsMkdirSync (root s ++ "/" ++ relativePath));
  run _track mkdir entry;
  _insertAt result entry.

(** [!c] for an optional string: [undefined] and the empty string are
    falsy. *)
Definition falsy (c : option string) : bool :=
  match c with
  | None => true
  | Some c => String.eqb c ""
  end.

(** [if (r)]: an object is truthy, [null] and [undefined] are not. *)
Definition truthy (r : Ref) : M bool :=
  fun s => (Return (if deref (store s) r is Some _ then true else false), s).

(** [r.checksum = c] *)
Definition write_checksum (r : Ref) (c : string) : M unit :=
  fun s =>
    match r with
    | ref a =>
        match store s !! a with
        | Some e =>
            (Return tt, set_store (<[a := with_checksum (Some c) e]> (store s)) s)
        | None => (Throw (NullPropertyAccess "checksum"), s)
        end
    | null => (Throw (NullPropertyAccess "checksum"), s)
    end.

(** The guard of [writeFileSync]: [true] when the function returns early. *)
Definition checksum_unchanged (relativePath : string) (entry : Ref)
    (checksum' : string) : M bool :=
  do exists_ <- truthy entry;
  if exists_ then
    do c <- read entry checksum "checksum";
    run (if falsy c then
           do s <- get;
           do onDisk <- fs_call (FsReadFileSync (root s ++ "/" ++ relativePath));
           write_checksum entry (md5hex onDisk)
         else ret tt);
    do c <- read entry checksum "checksum";
    ret (if c is Some c then String.eqb c checksum' else false)
  else ret false.

Definition writeFileSync (relativePath content : string) : M unit :=
  run _throwIfStopped "writeFile";
  do result <- findByRelativePath relativePath;
  let entry := entry result in
  let checksum' := md5hex ("" ++ content) in
  do noop <- checksum_unchanged relativePath entry checksum';
  if noop then ret tt
  else
    do s <- get;
    run fs_call (FsWriteFileSync (root s ++ "/" ++ relativePath) content);
    do s <- get;
    do entry' <- alloc (new_Entry relativePath
                                  (Z.of_nat (String.length content))
                                  (Date_now (calls s)) (Some checksum'));
    do existed <- truthy entry;
    let operation := if existed then change else create in
    run _track operation entry';
    _insertAt result entry'.

End Container.

(** ** The sortedness the constructor demands of [entries] *)

(** Strictly ascending: every path is below the next one, hence no path
    occurs twice. *)
Fixpoint ascending (paths : list string) : bool :=
  match paths with
  | a :: (b :: _) as rest => JsString.lt a b && ascending rest
  | _ => true
  end.

Definition sortedUnique (entries : list Entry) : Prop :=
  ascending (map relativePath entries) = true.

(** The paths of the container's entries, read through the store. *)
Definition entry_paths (s : State) : list string :=
  omap (fun r => relativePath <$> deref (store s) r) (entries s).

(** Every element of [entries] is an entry object (no [null], no hole). *)
Definition objects_only (s : State) : Prop :=
  Forall (fun r => is_Some (deref (store s) r)) (entries s).

(** ** The drain of [calculatePatch] as the specification words it

    "any leftover [ours] entries become removals (directories deferred, files
    appended forward)". *)
Fixpoint cleanup_ours_as_specified (ours : list Entry)
    (operations removals : list (Command Entry))
  : list (Command Entry) * list (Command Entry) :=
  match ours with
  | [] => (operations, removals)
  | x :: ours' =>
      if isDirectory x then
        cleanup_ours_as_specified ours' operations (removals ++ [removeCommand x])
      else
        cleanup_ours_as_specified ours' (operations ++ [removeCommand x]) removals
  end.

Definition patch_as_specified (isEqual : Entry -> Entry -> bool)
    (ours theirs : list Entry) : list (Command Entry) :=
  let '(ours_left, theirs_left, operations, removals) :=
    while_loop isEqual ours theirs [] [] in
  let '(operations, removals) :=
    cleanup_ours_as_specified ours_left operations removals in
  let operations := cleanup_theirs theirs_left operations in
  operations ++ rev removals.

(** ** What the merge keeps true of its two buffers *)

(** No [rmdir] is pushed onto [operations]. *)
Definition no_rmdir (operations : list (Command Entry)) : Prop :=
  forall c, c ∈ operations -> cmd_op c <> rmdir.

(** The removals held in [removals] are in ascending order of path. *)
Definition ordered (removals : list (Command Entry)) : Prop :=
  forall (a b : nat) ca cb,
    (a < b)%nat -> removals !! a = Some ca -> removals !! b = Some cb ->
    isRemoval ca = true -> isRemoval cb = true ->
    JsString.lt (cmd_path ca) (cmd_path cb) = true.

(** Every removal held in [removals] is below all of what is left of [ours]. *)
Definition below (removals : list (Command Entry)) (ours : list Entry) : Prop :=
  forall c x, c ∈ removals -> isRemoval c = true -> x ∈ ours ->
    JsString.lt (cmd_path c) (relativePath x) = true.

Record Inv (ours : list Entry) (operations removals : list (Command Entry))
  : Prop := mkInv {
  inv_sorted : sortedUnique ours;
  inv_no_rmdir : no_rmdir operations;
  inv_ordered : ordered removals;
  inv_below : below removals ours
}.

(** Every [change] command of the patch stems from a pair of entries met at
    the same path that [isEqual] tells apart. *)
Definition change_justified (isEqual : Entry -> Entry -> bool)
    (ours theirs : list Entry) (c : Command Entry) : Prop :=
  cmd_op c = change ->
  exists x y, x ∈ ours /\ y ∈ theirs /\ relativePath x = relativePath y /\
              isEqual x y = false /\ c = updateCommand y.

(** ** Sample data *)

Module Sample.

(** [[("a/", dir), ("a/b/", dir), ("a/b/c.js", file)]] *)
Definition tree_abc : list Entry := fromPaths ["a/"; "a/b/"; "a/b/c.js"].

Definition two_files : list Entry := fromPaths ["a.js"; "b.js"].

(** A digest, a file system on which every call succeeds and every file is
    empty, and a clock that counts the calls. *)
Definition md5hex (content : string) : string := "md5(" ++ content ++ ")".
Definition fs (history : list FsCall) (call : FsCall) : option string :=
  Some "".
Definition Date_now (history : list FsCall) : Z := Z.of_nat (length history).

(** A started container holding the single file [a.js]. *)
Definition one_file : State :=
  {| store := fromPaths ["a.js"];
     entries := [ref 0];
     root := "root";
     _changes := [];
     _relativePathToChange := ∅;
     _state := STARTED;
     calls := [] |}.

(** The same container after [stop()]. *)
Definition stopped : State := set_state STOPPED one_file.

End Sample.

(** ** What a patch is made of *)

Definition isAdd {E} (c : Command E) : bool :=
  match cmd_op c with
  | create | mkdir => true
  | _ => false
  end.

(** What [calculatePatch] returns from the state the merge loop stops in. *)
Definition finish (m : MergeState) : list (Command Entry) :=
  let '(ours_left, theirs_left, operations, removals) := m in
  cleanup_theirs theirs_left operations ++ rev (cleanup_ours ours_left removals).

(** [c] removes an entry of [ours] whose path [theirs] does not have. *)
Definition removed_only (ours theirs : list Entry) (c : Command Entry) : Prop :=
  exists x, x ∈ ours /\
            (forall y, y ∈ theirs -> relativePath y <> relativePath x) /\
            c = removeCommand x.

(** [c] adds an entry of [theirs] whose path [ours] does not have. *)
Definition added_only (ours theirs : list Entry) (c : Command Entry) : Prop :=
  exists y, y ∈ theirs /\
            (forall x, x ∈ ours -> relativePath x <> relativePath y) /\
            c = addCommand y.

(** [c] updates a path both have, to the entry of [theirs], the two entries
    being told apart by [isEqual]. *)
Definition updated (isEqual : Entry -> Entry -> bool)
    (ours theirs : list Entry) (c : Command Entry) : Prop :=
  exists x y, x ∈ ours /\ y ∈ theirs /\ relativePath x = relativePath y /\
              isEqual x y = false /\ c = updateCommand y.

Definition expected (isEqual : Entry -> Entry -> bool)
    (ours theirs : list Entry) (c : Command Entry) : Prop :=
  removed_only ours theirs c \/ added_only ours theirs c \/
  updated isEqual ours theirs c.

(** Commands that are carried out going forward: file removals and adds. *)
Definition isForward {E} (c : Command E) : bool :=
  match cmd_op c with
  | unlink | create | mkdir => true
  | _ => false
  end.

(** What the merge keeps true of the operations list: its forward commands
    are in ascending order of path and are below what is left of [ours] and
    of [theirs]; the removals buffer holds no forward command. *)
Record ForwardInv (ours theirs : list Entry)
    (operations removals : list (Command Entry)) : Prop := mkForwardInv {
  fwd_ordered : forall (a b : nat) ca cb,
      (a < b)%nat -> operations !! a = Some ca -> operations !! b = Some cb ->
      isForward ca = true -> isForward cb = true ->
      JsString.lt (cmd_path ca) (cmd_path cb) = true;
  fwd_below_ours : forall c x,
      c ∈ operations -> isForward c = true -> x ∈ ours ->
      JsString.lt (cmd_path c) (relativePath x) = true;
  fwd_below_theirs : forall c y,
      c ∈ operations -> isForward c = true -> y ∈ theirs ->
      JsString.lt (cmd_path c) (relativePath y) = true;
  fwd_removals : forall c, c ∈ removals -> isForward c = false
}.

(** What the merge keeps true of the paths it has emitted: they are below
    what is left of [ours] and of [theirs], and none is emitted twice. *)
Record PathInv (ours theirs : list Entry)
    (operations removals : list (Command Entry)) : Prop := mkPathInv {
  path_below_ours : forall c x,
      c ∈ operations \/ c ∈ removals -> x ∈ ours ->
      JsString.lt (cmd_path c) (relativePath x) = true;
  path_below_theirs : forall c y,
      c ∈ operations \/ c ∈ removals -> y ∈ theirs ->
      JsString.lt (cmd_path c) (relativePath y) = true;
  path_nodup_operations : NoDup (map cmd_path operations);
  path_nodup_removals : NoDup (map cmd_path removals);
  path_disjoint : forall c d,
      c ∈ operations -> d ∈ removals -> cmd_path c <> cmd_path d
}.

(** ** The rest of the container *)

Section Reads.

Variable fs : list FsCall -> FsCall -> option string.

(** [readFileSync(relativePath, encoding)]: the path is looked up, what is
    found is not used, and the file is read (the encoding only selects how the
    content is decoded). *)
Definition readFileSync (relativePath : string) : M string :=
  do entry <- findByRelativePath relativePath;
  do s <- get;
  fs_call fs (FsReadFileSync (root s ++ "/" ++ relativePath)).

End Reads.

(** ** What the container keeps true *)

(** [_relativePathToChange] maps each path that has a record in [_changes]
    to the index of that record, and maps no other path. *)
Definition tracker_ok (s : State) : Prop :=
  forall (p : string) (i : nat),
    _relativePathToChange s !! p = Some i <->
    exists op r, _changes s !! i = Some (op, p, r).

(** The index of a lookup result is [-1] or within [entries]. *)
Definition index_ok (result : Result) (s : State) : Prop :=
  index result = -1 \/
  exists k : nat, index result = Z.of_nat k /\ (k < length (entries s))%nat.

(** [m], run from a state where [P] holds, returns [a] in a state where
    [Q a] holds or throws [e] in a state where [R e] holds. *)
Definition hoare {A} (P : State -> Prop) (m : M A)
    (Q : A -> State -> Prop) (R : Exn -> State -> Prop) : Prop :=
  forall s, P s ->
    match m s with
    | (Return a, s') => Q a s'
    | (Throw e, s') => R e s'
    end.

(** The container itself is as it was in [s0]: only the store of entry
    objects and the record of file-system calls may differ. *)
Definition same_tree (s0 s : State) : Prop :=
  entries s = entries s0 /\ _changes s = _changes s0 /\
  _relativePathToChange s = _relativePathToChange s0 /\
  _state s = _state s0 /\ root s = root s0.

(** Every entry object of [s0] is still there in [s], with its path. *)
Definition store_extends (s0 s : State) : Prop :=
  forall a e, store s0 !! a = Some e ->
    exists e', store s !! a = Some e' /\ relativePath e' = relativePath e.

(** The entries are entry objects and the change log is consistent. *)
Definition consistent (s : State) : Prop := objects_only s /\ tracker_ok s.

(** What holds of [s] once [_track] has recorded a change on [r], for a
    mutation that started in [s0]. *)
Definition tracked (s0 : State) (r : Ref) (s : State) : Prop :=
  entries s = entries s0 /\ store_extends s0 s /\
  is_Some (deref (store s) r) /\ (tracker_ok s0 -> tracker_ok s).

(** ** More sample data *)

Module MoreSamples.

(** A started container holding the single file [a.js], whose checksum is
    known. *)
Definition hashed_file : State :=
  {| store := [new_Entry "a.js" 3 0 (Some "0cc175b9")];
     entries := [ref 0];
     root := "root";
     _changes := [];
     _relativePathToChange := ∅;
     _state := STARTED;
     calls := [] |}.

(** A file system on which every call throws. *)
Definition failing_fs (history : list FsCall) (call : FsCall) : option string :=
  None.

End MoreSamples.

(** ** Entries whose size and mtime need not be numbers

    The constructor stores [size] and [mtime] as they are passed:
    [new Entry(path, 0)] leaves [mtime] undefined, and a caller may pass
    [NaN].  [defaultIsEqual] compares [size] with [===] and [mtime] after the
    coercion [+mtime], and [NaN === NaN] is false.  The module below is the
    entry model and the patch calculator once more, over such entries; a
    [Date] held in [mtime] is represented by its time value, which is what
    [+] reads. *)

Module Untyped.

Inductive JsNumber : Type := Finite (n : Z) | NaN.

(** What [size] and [mtime] hold: nothing, or a number. *)
Inductive Scalar : Type := Undefined | Number (n : JsNumber).

(** [+v] *)
Definition to_number (v : Scalar) : JsNumber :=
  match v with
  | Undefined => NaN
  | Number n => n
  end.

(** [a === b] on numbers: [NaN] equals nothing. *)
Definition number_eq (a b : JsNumber) : bool :=
  match a, b with
  | Finite x, Finite y => x =? y
  | _, _ => false
  end.

(** [a === b] *)
Definition strict_eq (a b : Scalar) : bool :=
  match a, b with
  | Undefined, Undefined => true
  | Number x, Number y => number_eq x y
  | _, _ => false
  end.

Record Entry : Type := mkEntry {
  relativePath : string;
  mode : Z;
  size : Scalar;
  mtime : Scalar;
  checksum : option string
}.

(** [new Entry(relativePath, size, mtime, checksum)] *)
Definition new_Entry (relativePath : string) (size mtime : Scalar)
    (checksum : option string) : Entry :=
  let isDirectory :=
    String.eqb
      (JsString.charAt relativePath (Z.of_nat (String.length relativePath) - 1))
      "/" in
  {| relativePath := relativePath;
     mode := if isDirectory then DIRECTORY_MODE else 0;
     size := size;
     mtime := mtime;
     checksum := checksum |}.

Definition isDirectory (entry : Entry) : bool :=
  Z.land (mode entry) 61440 =? 16384.

Definition addCommand (entry : Entry) : Command Entry :=
  (if isDirectory entry then mkdir else create, relativePath entry, entry).

Definition removeCommand (entry : Entry) : Command Entry :=
  (if isDirectory entry then rmdir else unlink, relativePath entry, entry).

Definition updateCommand (entry : Entry) : Command Entry :=
  (change, relativePath entry, entry).

Definition defaultIsEqual (entryA entryB : Entry) : bool :=
  if isDirectory entryA && isDirectory entryB then true
  else
    strict_eq (size entryA) (size entryB) &&
    number_eq (to_number (mtime entryA)) (to_number (mtime entryB)) &&
    (mode entryA =? mode entryB).

Definition MergeState : Type :=
  (list Entry * list Entry * list (Command Entry) * list (Command Entry))%type.

(** [while (i < ours.length && j < theirs.length) { ... }] *)
Fixpoint while_loop (isEqual : Entry -> Entry -> bool) (ours : list Entry)
    {struct ours}
  : list Entry -> list (Command Entry) -> list (Command Entry) -> MergeState :=
  match ours with
  | [] => fun theirs operations removals => ([], theirs, operations, removals)
  | x :: ours' =>
      fix scan (theirs : list Entry)
          (operations removals : list (Command Entry)) {struct theirs}
        : MergeState :=
        match theirs with
        | [] => (x :: ours', [], operations, removals)
        | y :: theirs' =>
            if JsString.lt (relativePath x) (relativePath y) then
              let command := removeCommand x in
              if isDirectory x then
                while_loop isEqual ours' theirs operations (removals ++ [command])
              else
                while_loop isEqual ours' theirs (operations ++ [command]) removals
            else if JsString.gt (relativePath x) (relativePath y) then
              scan theirs' (operations ++ [addCommand y]) removals
            else
              if negb (isEqual x y) then
                let command := updateCommand y in
                if isDirectory x then
                  while_loop isEqual ours' theirs' operations (removals ++ [command])
                else
                  while_loop isEqual ours' theirs' (operations ++ [command]) removals
              else
                while_loop isEqual ours' theirs' operations removals
        end
  end.

Fixpoint cleanup_ours (ours : list Entry) (removals : list (Command Entry))
  : list (Command Entry) :=
  match ours with
  | [] => removals
  | x :: ours' => cleanup_ours ours' (removals ++ [removeCommand x])
  end.

Fixpoint cleanup_theirs (theirs : list Entry) (operations : list (Command Entry))
  : list (Command Entry) :=
  match theirs with
  | [] => operations
  | y :: theirs' => cleanup_theirs theirs' (operations ++ [addCommand y])
  end.

Definition patch (isEqual : Entry -> Entry -> bool) (ours theirs : list Entry)
  : list (Command Entry) :=
  let '(ours_left, theirs_left, operations, removals) :=
    while_loop isEqual ours theirs [] [] in
  let removals := cleanup_ours ours_left removals in
  let operations := cleanup_theirs theirs_left operations in
  operations ++ rev removals.

(** The values a caller can pass where a function is expected. *)
Inductive Value : Type :=
| VUndefined
| VNull
| VBoolean (b : bool)
| VNumber (n : Z)
| VString (s : string)
| VObject
| VFunction (f : Entry -> Entry -> bool).

Definition typeof (v : Value) : string :=
  match v with
  | VUndefined => "undefined"
  | VNull => "object"
  | VBoolean _ => "boolean"
  | VNumber _ => "number"
  | VString _ => "string"
  | VObject => "object"
  | VFunction _ => "function"
  end.

(** [calculatePatch(otherFSTree, isEqual)], with [isEqual] as above: [None]
    for a call with a single argument. *)
Definition calculatePatch (ours theirs : list Entry) (isEqual : option Value)
  : Outcome (list (Command Entry)) :=
  let arguments_length : Z := if isEqual is Some _ then 2 else 1 in
  let isEqual : Value := default VUndefined isEqual in
  if (1 <? arguments_length) && negb (String.eqb (typeof isEqual) "function")
  then Throw (TypeError "calculatePatch's second argument must be a function")
  else
    let isEqual : Entry -> Entry -> bool :=
      match isEqual with
      | VFunction f => f
      | _ => defaultIsEqual
      end in
    Return (patch isEqual ours theirs).

(** Strictly ascending by path, without duplicates. *)
Definition sortedUnique (entries : list Entry) : Prop :=
  ascending (map relativePath entries) = true.

(** An entry that [defaultIsEqual] finds equal to itself: a directory, or an
    entry whose size is not [NaN] and whose mtime does not coerce to [NaN]. *)
Definition self_equal (entry : Entry) : Prop :=
  isDirectory entry = true \/
  (size entry <> Number NaN /\ to_number (mtime entry) <> NaN).

End Untyped.

(** An entry with integer size and mtime, as an entry of the module above. *)
Definition untyped (entry : Entry) : Untyped.Entry :=
  {| Untyped.relativePath := relativePath entry;
     Untyped.mode := mode entry;
     Untyped.size := Untyped.Number (Untyped.Finite (size entry));
     Untyped.mtime := Untyped.Number (Untyped.Finite (mtime entry));
     Untyped.checksum := checksum entry |}.

Definition untyped_command (c : Command Entry) : Command Untyped.Entry :=
  (cmd_op c, cmd_path c, untyped (cmd_entry c)).

Definition untyped_state (m : MergeState) : Untyped.MergeState :=
  let '(ours, theirs, operations, removals) := m in
  (map untyped ours, map untyped theirs,
   map untyped_command operations, map untyped_command removals).

(** * Properties *)

(** ** The order on strings *)

Module JsStringFacts.

Lemma ascii_compare_refl (c : ascii) : Ascii.compare c c = Eq.
Proof. unfold Ascii.compare. apply N.compare_refl. Qed.

Lemma compare_refl (s : string) : String.compare s s = Eq.
Proof.
  induction s as [|c s IH]; simpl; [reflexivity|].
  now rewrite ascii_compare_refl.
Qed.

Lemma ascii_compare_lt_trans (a b c : ascii) :
  Ascii.compare a b = Lt -> Ascii.compare b c = Lt -> Ascii.compare a c = Lt.
Proof.
  unfold Ascii.compare. rewrite !N.compare_lt_iff. lia.
Qed.

Lemma compare_lt_trans (a b c : string) :
  String.compare a b = Lt -> String.compare b c = Lt -> String.compare a c = Lt.
Proof.
  revert b c. induction a as [|x a IH]; intros [|y b] [|z c]; simpl;
    try congruence.
  destruct (Ascii.compare x y) eqn:Hxy; try discriminate.
  - apply Ascii.compare_eq_iff in Hxy. subst y.
    destruct (Ascii.compare x z); try congruence. apply IH.
  - intros _. destruct (Ascii.compare y z) eqn:Hyz; try discriminate.
    + apply Ascii.compare_eq_iff in Hyz. subst z. now rewrite Hxy.
    + intros _. now rewrite (ascii_compare_lt_trans x y z).
Qed.

Lemma lt_irrefl (a : string) : JsString.lt a a = false.
Proof. unfold JsString.lt, String.ltb. now rewrite compare_refl. Qed.

Lemma gt_irrefl (a : string) : JsString.gt a a = false.
Proof. apply lt_irrefl. Qed.

Lemma lt_trans (a b c : string) :
  JsString.lt a b = true -> JsString.lt b c = true -> JsString.lt a c = true.
Proof.
  unfold JsString.lt, String.ltb. intros Hab Hbc.
  destruct (String.compare a b) eqn:Eab; try discriminate.
  destruct (String.compare b c) eqn:Ebc; try discriminate.
  now rewrite (compare_lt_trans a b c).
Qed.

Lemma lt_asym (a b : string) :
  JsString.lt a b = true -> JsString.lt b a = true -> False.
Proof.
  intros Hab Hba. pose proof (lt_trans _ _ _ Hab Hba) as H.
  rewrite lt_irrefl in H. discriminate.
Qed.

(** A proper prefix sorts before the string it is a prefix of. *)
Lemma strict_prefix_lt (d p : string) :
  JsString.strict_prefix d p -> JsString.lt d p = true.
Proof.
  unfold JsString.strict_prefix, JsString.lt, String.ltb.
  revert p. induction d as [|c d IH]; intros [|c' p]; simpl; intros [Hpre Hne];
    try congruence.
  destruct (ascii_dec c c') as [->|]; [|discriminate].
  rewrite ascii_compare_refl. apply IH. split; [assumption|congruence].
Qed.

End JsStringFacts.

(** ** The default equality predicate *)

Lemma defaultIsEqual_refl (x : Entry) : defaultIsEqual x x = true.
Proof.
  unfold defaultIsEqual.
  destruct (isDirectory x && isDirectory x); [reflexivity|].
  now rewrite !Z.eqb_refl.
Qed.

Lemma defaultIsEqual_files (a b : Entry) :
  isDirectory a && isDirectory b = false ->
  defaultIsEqual a b = true <->
  size a = size b /\ mtime a = mtime b /\ mode a = mode b.
Proof.
  intros H. unfold defaultIsEqual. rewrite H.
  rewrite !andb_true_iff, !Z.eqb_eq. tauto.
Qed.

(** ** Unfolding the merge loop *)

Lemma while_loop_cons isEqual x ours' y theirs' operations removals :
  while_loop isEqual (x :: ours') (y :: theirs') operations removals =
  if JsString.lt (relativePath x) (relativePath y) then
    if isDirectory x then
      while_loop isEqual ours' (y :: theirs') operations
                 (removals ++ [removeCommand x])
    else
      while_loop isEqual ours' (y :: theirs')
                 (operations ++ [removeCommand x]) removals
  else if JsString.gt (relativePath x) (relativePath y) then
    while_loop isEqual (x :: ours') theirs' (operations ++ [addCommand y]) removals
  else if negb (isEqual x y) then
    if isDirectory x then
      while_loop isEqual ours' theirs' operations (removals ++ [updateCommand y])
    else
      while_loop isEqual ours' theirs' (operations ++ [updateCommand y]) removals
  else while_loop isEqual ours' theirs' operations removals.
Proof. reflexivity. Qed.

Lemma while_loop_nil_r isEqual ours operations removals :
  while_loop isEqual ours [] operations removals = (ours, [], operations, removals).
Proof. destruct ours; reflexivity. Qed.

(** An induction principle that follows the branches of the loop. *)
Lemma while_loop_ind isEqual
    (P : list Entry -> list Entry -> list (Command Entry) ->
         list (Command Entry) -> MergeState -> Prop) :
  (forall theirs ops rem, P [] theirs ops rem ([], theirs, ops, rem)) ->
  (forall ours ops rem, P ours [] ops rem (ours, [], ops, rem)) ->
  (forall x ours' y theirs' ops rem r,
      JsString.lt (relativePath x) (relativePath y) = true ->
      isDirectory x = true ->
      P ours' (y :: theirs') ops (rem ++ [removeCommand x]) r ->
      P (x :: ours') (y :: theirs') ops rem r) ->
  (forall x ours' y theirs' ops rem r,
      JsString.lt (relativePath x) (relativePath y) = true ->
      isDirectory x = false ->
      P ours' (y :: theirs') (ops ++ [removeCommand x]) rem r ->
      P (x :: ours') (y :: theirs') ops rem r) ->
  (forall x ours' y theirs' ops rem r,
      JsString.lt (relativePath x) (relativePath y) = false ->
      JsString.gt (relativePath x) (relativePath y) = true ->
      P (x :: ours') theirs' (ops ++ [addCommand y]) rem r ->
      P (x :: ours') (y :: theirs') ops rem r) ->
  (forall x ours' y theirs' ops rem r,
      JsString.lt (relativePath x) (relativePath y) = false ->
      JsString.gt (relativePath x) (relativePath y) = false ->
      isEqual x y = false -> isDirectory x = true ->
      P ours' theirs' ops (rem ++ [updateCommand y]) r ->
      P (x :: ours') (y :: theirs') ops rem r) ->
  (forall x ours' y theirs' ops rem r,
      JsString.lt (relativePath x) (relativePath y) = false ->
      JsString.gt (relativePath x) (relativePath y) = false ->
      isEqual x y = false -> isDirectory x = false ->
      P ours' theirs' (ops ++ [updateCommand y]) rem r ->
      P (x :: ours') (y :: theirs') ops rem r) ->
  (forall x ours' y theirs' ops rem r,
      JsString.lt (relativePath x) (relativePath y) = false ->
      JsString.gt (relativePath x) (relativePath y) = false ->
      isEqual x y = true ->
      P ours' theirs' ops rem r ->
      P (x :: ours') (y :: theirs') ops rem r) ->
  forall ours theirs ops rem,
    P ours theirs ops rem (while_loop isEqual ours theirs ops rem).
Proof.
  intros Hnil Hnil' Hrd Hrf Hadd Hud Huf Hsame.
  induction ours as [|x ours' IHo]; intros theirs.
  - intros. apply Hnil.
  - induction theirs as [|y theirs' IHt]; intros ops rem.
    + rewrite while_loop_nil_r. apply Hnil'.
    + rewrite while_loop_cons.
      destruct (JsString.lt (relativePath x) (relativePath y)) eqn:Hlt.
      * destruct (isDirectory x) eqn:Hd; [apply Hrd|apply Hrf]; auto.
      * destruct (JsString.gt (relativePath x) (relativePath y)) eqn:Hgt.
        { apply Hadd; auto. }
        destruct (isEqual x y) eqn:Heq; simpl.
        { apply Hsame; auto. }
        destruct (isDirectory x) eqn:Hd; [apply Hud|apply Huf]; auto.
Qed.

Lemma cleanup_ours_app ours removals :
  cleanup_ours ours removals = removals ++ map removeCommand ours.
Proof.
  revert removals. induction ours as [|x ours IH]; intros removals; simpl.
  - now rewrite app_nil_r.
  - rewrite IH, <- app_assoc. reflexivity.
Qed.

Lemma cleanup_theirs_app theirs operations :
  cleanup_theirs theirs operations = operations ++ map addCommand theirs.
Proof.
  revert operations. induction theirs as [|y theirs IH]; intros operations; simpl.
  - now rewrite app_nil_r.
  - rewrite IH, <- app_assoc. reflexivity.
Qed.

(** ** The patch calculator *)

Lemma while_loop_same (A : list Entry) operations removals :
  while_loop defaultIsEqual A A operations removals = ([], [], operations, removals).
Proof.
  induction A as [|x A IH]; [reflexivity|].
  rewrite while_loop_cons.
  rewrite JsStringFacts.lt_irrefl, JsStringFacts.gt_irrefl, defaultIsEqual_refl.
  simpl. apply IH.
Qed.

(** On entries whose size and mtime are integers, diffing an entry sequence
    against itself with the default equality predicate yields the empty
    operation list (for every sequence, sorted and duplicate-free or not). *)
Theorem calculatePatch_same_is_empty (A : list Entry) :
  calculatePatch A A None = Return [].
Proof.
  unfold calculatePatch, patch. simpl.
  now rewrite while_loop_same.
Qed.

Lemma change_justified_mono isEqual x ours y theirs c :
  (change_justified isEqual ours theirs c \/
   change_justified isEqual (x :: ours) theirs c \/
   change_justified isEqual ours (y :: theirs) c) ->
  change_justified isEqual (x :: ours) (y :: theirs) c.
Proof.
  intros H Hop.
  destruct H as [H|[H|H]]; destruct (H Hop) as (x' & y' & Hx & Hy & Hrest);
    exists x', y'; (split; [|split]); try assumption;
    rewrite ?elem_of_cons; auto.
Qed.

Lemma subseteq_tail {A} (x : A) (l O : list A) : x :: l ⊆ O -> l ⊆ O.
Proof. intros H z Hz. apply H. rewrite elem_of_cons. now right. Qed.

Lemma subseteq_head {A} (x : A) (l O : list A) : x :: l ⊆ O -> x ∈ O.
Proof. intros H. apply H. rewrite elem_of_cons. now left. Qed.

Lemma neither_lt_nor_gt (a b : string) :
  JsString.lt a b = false -> JsString.gt a b = false -> a = b.
Proof.
  unfold JsString.lt, JsString.gt, String.ltb. intros Hlt Hgt.
  rewrite String.compare_antisym in Hgt.
  destruct (String.compare a b) eqn:E; try discriminate.
  now apply String.compare_eq_iff.
Qed.

Lemma removeCommand_not_change x : cmd_op (removeCommand x) <> change.
Proof. unfold removeCommand, cmd_op; simpl. destruct (isDirectory x); discriminate. Qed.

Lemma addCommand_not_change y : cmd_op (addCommand y) <> change.
Proof. unfold addCommand, cmd_op; simpl. destruct (isDirectory y); discriminate. Qed.

Lemma Forall_snoc {A} (P : A -> Prop) (l : list A) (x : A) :
  Forall P l -> P x -> Forall P (l ++ [x]).
Proof. intros Hl Hx. apply Forall_app; split; [assumption|]. now constructor. Qed.

Create HintDb patch.
#[local] Hint Resolve subseteq_tail subseteq_head : patch.
#[local] Hint Resolve Forall_snoc : patch.

Lemma while_loop_changes isEqual ours theirs operations removals :
  forall O T,
    ours ⊆ O -> theirs ⊆ T ->
    Forall (change_justified isEqual O T) operations ->
    Forall (change_justified isEqual O T) removals ->
    let '(_, _, operations', removals') :=
      while_loop isEqual ours theirs operations removals in
    Forall (change_justified isEqual O T) operations' /\
    Forall (change_justified isEqual O T) removals'.
Proof.
  pattern ours, theirs, operations, removals,
    (while_loop isEqual ours theirs operations removals).
  apply while_loop_ind; clear ours theirs operations removals;
    try (intros x ours' y theirs' ops rem [[[o t] ops'] rem']).
  - auto.
  - auto.
  - intros _ _ IH O T Ho Ht Hops Hrem. apply IH; eauto with patch.
    apply Forall_snoc; [assumption|].
    intros Hop. now apply removeCommand_not_change in Hop.
  - intros _ _ IH O T Ho Ht Hops Hrem. apply IH; eauto with patch.
    apply Forall_snoc; [assumption|].
    intros Hop. now apply removeCommand_not_change in Hop.
  - intros _ _ IH O T Ho Ht Hops Hrem. apply IH; eauto with patch.
    apply Forall_snoc; [assumption|].
    intros Hop. now apply addCommand_not_change in Hop.
  - intros Hlt Hgt Hne _ IH O T Ho Ht Hops Hrem. apply IH; eauto with patch.
    apply Forall_snoc; [assumption|].
    intros _. exists x, y. pose proof (neither_lt_nor_gt _ _ Hlt Hgt).
    eauto 10 with patch.
  - intros Hlt Hgt Hne _ IH O T Ho Ht Hops Hrem. apply IH; eauto with patch.
    apply Forall_snoc; [assumption|].
    intros _. exists x, y. pose proof (neither_lt_nor_gt _ _ Hlt Hgt).
    eauto 10 with patch.
  - intros _ _ _ IH O T Ho Ht Hops Hrem. apply IH; eauto with patch.
Qed.

Lemma patch_changes isEqual ours theirs :
  Forall (change_justified isEqual ours theirs) (patch isEqual ours theirs).
Proof.
  unfold patch.
  pose proof (while_loop_changes isEqual ours theirs [] [] ours theirs) as H.
  destruct (while_loop isEqual ours theirs [] []) as [[[o t] ops] rem].
  destruct H as [Hops Hrem]; try done.
  rewrite cleanup_ours_app, cleanup_theirs_app.
  apply Forall_app; split; [apply Forall_app; split; [assumption|] |
                            apply Forall_rev, Forall_app; split; [assumption|]].
  - apply Forall_forall. intros c Hc Hop. exfalso.
    apply list_elem_of_In, in_map_iff in Hc as (y & <- & _).
    now apply addCommand_not_change in Hop.
  - apply Forall_forall. intros c Hc Hop. exfalso.
    apply list_elem_of_In, in_map_iff in Hc as (x & <- & _).
    now apply removeCommand_not_change in Hop.
Qed.

(** C8. Under the default equality predicate two directories are always
    equal, whatever their size, mtime and mode; two files are equal exactly
    when size, mtime and mode agree; the checksums play no part; and no
    [change] command of a patch computed with it stems from a pair of
    directories. *)
Theorem defaultIsEqual_contract :
  (forall a b : Entry,
      isDirectory a = true -> isDirectory b = true -> defaultIsEqual a b = true) /\
  (forall a b : Entry,
      isFile a = true -> isFile b = true ->
      (defaultIsEqual a b = true <->
       size a = size b /\ mtime a = mtime b /\ mode a = mode b)) /\
  (forall (a b : Entry) (ca cb : option string),
      defaultIsEqual (with_checksum ca a) (with_checksum cb b) =
      defaultIsEqual a b) /\
  (forall (ours theirs : list Entry) (c : Command Entry),
      c ∈ patch defaultIsEqual ours theirs -> cmd_op c = change ->
      exists x y, x ∈ ours /\ y ∈ theirs /\ relativePath x = relativePath y /\
                  c = updateCommand y /\
                  ~ (isDirectory x = true /\ isDirectory y = true)).
Proof.
  split; [|split; [|split]].
  - intros a b Ha Hb. unfold defaultIsEqual. now rewrite Ha, Hb.
  - intros a b Ha Hb. apply defaultIsEqual_files.
    unfold isFile in Ha. destruct (isDirectory a); [discriminate|reflexivity].
  - intros a b ca cb. reflexivity.
  - intros ours theirs c Hc Hop.
    pose proof (patch_changes defaultIsEqual ours theirs) as H.
    rewrite Forall_forall in H.
    destruct (H c Hc Hop) as (x & y & Hx & Hy & Hpath & Hne & ->).
    exists x, y. repeat split; try assumption.
    intros [Hdx Hdy]. unfold defaultIsEqual in Hne.
    rewrite Hdx, Hdy in Hne. discriminate.
Qed.

(** C8, on two directories that differ in size, mtime and mode, on two files,
    and on the patch between these two directories. *)
Lemma defaultIsEqual_contract_witness :
  defaultIsEqual (mkEntry "a/" 16877 1 2 None) (mkEntry "a/" 16895 3 4 None) = true /\
  (defaultIsEqual (mkEntry "f" 0 1 2 None) (mkEntry "f" 0 1 2 (Some "x")) = true <->
   1 = 1 /\ 2 = 2 /\ 0 = 0) /\
  (forall c,
      c ∈ patch defaultIsEqual [mkEntry "a/" 16877 1 2 None]
                               [mkEntry "a/" 16895 3 4 None] ->
      cmd_op c = change ->
      exists x y, x ∈ [mkEntry "a/" 16877 1 2 None] /\
                  y ∈ [mkEntry "a/" 16895 3 4 None] /\
                  relativePath x = relativePath y /\
                  c = updateCommand y /\
                  ~ (isDirectory x = true /\ isDirectory y = true)).
Proof.
  destruct defaultIsEqual_contract as (Hdirs & Hfiles & _ & Hpatch).
  split; [|split].
  - apply Hdirs; reflexivity.
  - apply Hfiles; reflexivity.
  - apply Hpatch.
Defined.

(** C10. A second argument that is passed and is not a function makes
    [calculatePatch] throw the type error, whatever the two entry sequences
    are: nothing of them is looked at. *)
Theorem calculatePatch_rejects_non_function
    (ours theirs : list Entry) (isEqual : Value) :
  typeof isEqual <> "function" ->
  calculatePatch ours theirs (Some isEqual) =
  Throw (TypeError "calculatePatch's second argument must be a function").
Proof.
  intros H. destruct isEqual; try reflexivity.
  now contradiction H.
Qed.

Lemma calculatePatch_rejects_non_function_witness :
  calculatePatch Sample.tree_abc Sample.two_files (Some (VString "checksum")) =
  Throw (TypeError "calculatePatch's second argument must be a function").
Proof.
  apply calculatePatch_rejects_non_function. simpl. discriminate.
Defined.

(** ** The drain and the final reversal *)

Lemma while_loop_exhausts isEqual ours theirs operations removals :
  let '(ours_left, theirs_left, _, _) :=
    while_loop isEqual ours theirs operations removals in
  ours_left = [] \/ theirs_left = [].
Proof.
  pattern ours, theirs, operations, removals,
    (while_loop isEqual ours theirs operations removals).
  apply while_loop_ind; clear ours theirs operations removals;
    try (intros x ours' y theirs' ops rem [[[o t] ops'] rem']); auto.
Qed.

(** C3, as the code has it. When the merge loop stops one of the two
    sequences is exhausted; every entry left of [ours], file or directory, then
    becomes a removal pushed onto the removals buffer, every entry left of
    [theirs] becomes an add pushed onto the operations list, and the result is
    the operations list followed by the removals buffer reversed. *)
Theorem calculatePatch_drain (isEqual : Entry -> Entry -> bool)
    (ours theirs : list Entry) :
  let '(ours_left, theirs_left, operations, removals) :=
    while_loop isEqual ours theirs [] [] in
  (ours_left = [] \/ theirs_left = []) /\
  calculatePatch ours theirs (Some (VFunction isEqual)) =
  Return ((operations ++ map addCommand theirs_left) ++
          rev (removals ++ map removeCommand ours_left)).
Proof.
  pose proof (while_loop_exhausts isEqual ours theirs [] []) as H.
  unfold calculatePatch, patch. simpl.
  destruct (while_loop isEqual ours theirs [] []) as [[[o t] ops] rem].
  split; [assumption|].
  now rewrite cleanup_ours_app, cleanup_theirs_app.
Qed.

(** C3, as stated, fails: two files left over in [ours] are not appended to
    the operations list in forward order, they come out reversed. *)
Lemma leftover_files_are_reversed :
  calculatePatch Sample.two_files [] None =
    Return [removeCommand (new_Entry "b.js" 0 0 None);
            removeCommand (new_Entry "a.js" 0 0 None)] /\
  patch_as_specified defaultIsEqual Sample.two_files [] =
    [removeCommand (new_Entry "a.js" 0 0 None);
     removeCommand (new_Entry "b.js" 0 0 None)] /\
  calculatePatch Sample.two_files [] None <>
    Return (patch_as_specified defaultIsEqual Sample.two_files []).
Proof.
  split; [reflexivity|]. split; [reflexivity|]. discriminate.
Qed.

(** ** Removal order *)

Lemma ascending_cons (a : string) (l : list string) :
  ascending (a :: l) = true ->
  ascending l = true /\ forall b, b ∈ l -> JsString.lt a b = true.
Proof.
  revert a. induction l as [|b l IH]; intros a H.
  - split; [reflexivity|]. intros b Hb. inversion Hb.
  - change (JsString.lt a b && ascending (b :: l) = true) in H.
    apply andb_true_iff in H as [Hab Hl].
    split; [assumption|].
    intros c Hc. apply elem_of_cons in Hc as [->|Hc]; [assumption|].
    destruct (IH b Hl) as [_ Hb].
    eapply JsStringFacts.lt_trans; eauto.
Qed.

Lemma sortedUnique_cons (x : Entry) (ours : list Entry) :
  sortedUnique (x :: ours) ->
  sortedUnique ours /\
  forall e, e ∈ ours -> JsString.lt (relativePath x) (relativePath e) = true.
Proof.
  unfold sortedUnique. simpl. intros H.
  apply ascending_cons in H as [Hs Hlt]. split; [assumption|].
  intros e He. apply Hlt.
  apply list_elem_of_In, in_map, list_elem_of_In, He.
Qed.

Lemma inv_push_operation ours operations removals c :
  Inv ours operations removals -> cmd_op c <> rmdir ->
  Inv ours (operations ++ [c]) removals.
Proof.
  intros [Hs Hn Ho Hb] Hc. split; try assumption.
  intros c' Hc'. apply elem_of_app in Hc' as [Hc'|Hc']; [now apply Hn|].
  apply list_elem_of_singleton in Hc'. now subst.
Qed.

Lemma inv_advance x ours operations removals :
  Inv (x :: ours) operations removals -> Inv ours operations removals.
Proof.
  intros [Hs Hn Ho Hb]. split; try assumption.
  - now apply sortedUnique_cons in Hs.
  - intros c e Hc Hr He. apply Hb; try assumption.
    apply elem_of_cons. now right.
Qed.

Lemma inv_push_removal x ours operations removals c :
  Inv (x :: ours) operations removals ->
  (isRemoval c = true -> cmd_path c = relativePath x) ->
  Inv ours operations (removals ++ [c]).
Proof.
  intros [Hs Hn Ho Hb] Hc.
  apply sortedUnique_cons in Hs as [Hs Hlt].
  split; try assumption.
  - intros a b ca cb Hab Ha Hb' Hra Hrb.
    apply lookup_snoc_Some in Hb' as [[Hlen Hb']|[-> ->]].
    + rewrite lookup_app_l in Ha by lia.
      exact (Ho a b ca cb Hab Ha Hb' Hra Hrb).
    + rewrite lookup_app_l in Ha by lia.
      rewrite (Hc Hrb). apply Hb; try assumption.
      * eapply list_elem_of_lookup_2; eauto.
      * apply elem_of_cons. now left.
  - intros c' e Hc' Hr He.
    apply elem_of_app in Hc' as [Hc'|Hc'].
    + apply Hb; try assumption. apply elem_of_cons. now right.
    + apply list_elem_of_singleton in Hc'. subst c'.
      rewrite (Hc Hr). now apply Hlt.
Qed.

Lemma removeCommand_path x : cmd_path (removeCommand x) = relativePath x.
Proof. reflexivity. Qed.

Lemma addCommand_not_rmdir y : cmd_op (addCommand y) <> rmdir.
Proof. unfold addCommand, cmd_op; simpl. destruct (isDirectory y); discriminate. Qed.

Lemma while_loop_inv isEqual ours theirs operations removals :
  Inv ours operations removals ->
  let '(ours_left, _, operations', removals') :=
    while_loop isEqual ours theirs operations removals in
  Inv ours_left operations' removals'.
Proof.
  pattern ours, theirs, operations, removals,
    (while_loop isEqual ours theirs operations removals).
  apply while_loop_ind; clear ours theirs operations removals;
    try (intros x ours' y theirs' ops rem [[[o t] ops'] rem']).
  - auto.
  - auto.
  - intros _ _ IH HI. apply IH.
    eapply inv_push_removal; eauto.
  - intros _ Hd IH HI. apply IH.
    apply inv_push_operation; [eapply inv_advance; eauto|].
    unfold removeCommand, cmd_op; simpl. rewrite Hd. discriminate.
  - intros _ _ IH HI. apply IH.
    apply inv_push_operation; [assumption|apply addCommand_not_rmdir].
  - intros _ _ _ _ IH HI. apply IH.
    eapply inv_push_removal; eauto. discriminate.
  - intros _ _ _ _ IH HI. apply IH.
    apply inv_push_operation; [eapply inv_advance; eauto|discriminate].
  - intros _ _ _ IH HI. apply IH. eapply inv_advance; eauto.
Qed.

Lemma cleanup_ours_inv ours operations removals :
  Inv ours operations removals ->
  Inv [] operations (cleanup_ours ours removals).
Proof.
  revert removals. induction ours as [|x ours IH]; intros removals HI; simpl.
  - assumption.
  - apply IH. eapply inv_push_removal; eauto.
Qed.

Lemma cleanup_theirs_no_rmdir theirs operations :
  no_rmdir operations -> no_rmdir (cleanup_theirs theirs operations).
Proof.
  revert operations. induction theirs as [|y theirs IH]; intros operations H; simpl.
  - assumption.
  - apply IH. intros c Hc. apply elem_of_app in Hc as [Hc|Hc]; [now apply H|].
    apply list_elem_of_singleton in Hc. subst c. apply addCommand_not_rmdir.
Qed.

Lemma Inv_init ours : sortedUnique ours -> Inv ours [] [].
Proof.
  intros Hs. split; [assumption| | |].
  - intros c Hc. inversion Hc.
  - intros a b ca cb _ Ha. discriminate.
  - intros c x Hc. inversion Hc.
Qed.

(** The shape of every patch: a list without [rmdir], then an ordered list
    reversed. *)
Lemma patch_shape isEqual ours theirs :
  sortedUnique ours ->
  exists operations removals,
    patch isEqual ours theirs = operations ++ rev removals /\
    no_rmdir operations /\ ordered removals.
Proof.
  intros Hs. unfold patch.
  pose proof (while_loop_inv isEqual ours theirs [] [] (Inv_init ours Hs)) as H.
  destruct (while_loop isEqual ours theirs [] []) as [[[o t] ops] rem].
  apply cleanup_ours_inv in H. destruct H as [_ Hn Ho _].
  eexists _, _. split; [reflexivity|]. split; [|assumption].
  now apply cleanup_theirs_no_rmdir.
Qed.

Lemma rev_lookup_Some {A} (l : list A) (i : nat) (x : A) :
  rev l !! i = Some x <-> l !! (length l - S i)%nat = Some x /\ (i < length l)%nat.
Proof. rewrite rev_alt. apply reverse_lookup_Some. Qed.

Lemma children_first operations removals (i j : nat) D c :
  no_rmdir operations -> ordered removals ->
  (operations ++ rev removals) !! i = Some D -> cmd_op D = rmdir ->
  (operations ++ rev removals) !! j = Some c -> isRemoval c = true ->
  JsString.strict_prefix (cmd_path D) (cmd_path c) ->
  (j < i)%nat.
Proof.
  intros Hn Ho HD HopD Hc Hrc Hpre.
  assert (HrD : isRemoval D = true) by (unfold isRemoval; now rewrite HopD).
  pose proof (JsStringFacts.strict_prefix_lt _ _ Hpre) as Hlt.
  apply lookup_app_Some in HD as [HD|[HiD HD]].
  { exfalso. apply (Hn D); [eapply list_elem_of_lookup_2; eauto|assumption]. }
  apply lookup_app_Some in Hc as [Hc|[Hjc Hc]].
  { apply lookup_lt_Some in Hc. lia. }
  apply rev_lookup_Some in HD as [HD HiD'].
  apply rev_lookup_Some in Hc as [Hc Hjc'].
  destruct (Nat.lt_ge_cases j i) as [|Hij]; [assumption|exfalso].
  destruct (Nat.eq_dec i j) as [->|Hne].
  - rewrite HD in Hc. injection Hc as ->. destruct Hpre as [_ Hpre]. now apply Hpre.
  - assert (Hpos : (length removals - S (j - length operations) <
                    length removals - S (i - length operations))%nat) by lia.
    pose proof (Ho _ _ _ _ Hpos Hc HD Hrc HrD) as Hgt.
    exact (JsStringFacts.lt_asym _ _ Hlt Hgt).
Qed.

(** C2. In the patch between two sorted, duplicate-free entry sequences, a
    removal ([unlink] or [rmdir]) whose path lies strictly below the path of
    an [rmdir] command comes before that [rmdir]; and removing the tree
    [a/], [a/b/], [a/b/c.js] altogether unlinks [a/b/c.js], then removes the
    directory [a/b/], then the directory [a/] (each command carries the path of
    its entry). *)
Theorem removal_of_children_first
    (ours theirs : list Entry) (isEqual : option Value)
    (out : list (Command Entry)) (i j : nat) (D c : Command Entry) :
  sortedUnique ours -> sortedUnique theirs ->
  calculatePatch ours theirs isEqual = Return out ->
  out !! i = Some D -> cmd_op D = rmdir ->
  out !! j = Some c -> isRemoval c = true ->
  JsString.strict_prefix (cmd_path D) (cmd_path c) ->
  (j < i)%nat /\
  calculatePatch Sample.tree_abc [] None =
  Return [(unlink, "a/b/c.js", new_Entry "a/b/c.js" 0 0 None);
          (rmdir, "a/b/", new_Entry "a/b/" 0 0 None);
          (rmdir, "a/", new_Entry "a/" 0 0 None)].
Proof.
  intros Hours _ Hout HD HopD Hc Hrc Hpre. split; [|reflexivity].
  assert (exists f, out = patch f ours theirs) as [f ->].
  { unfold calculatePatch in Hout.
    destruct (_ && _); [discriminate|]. injection Hout as <-. eauto. }
  destruct (patch_shape f ours theirs Hours) as (ops & rem & Heq & Hn & Ho).
  rewrite Heq in HD, Hc.
  eapply children_first; eauto.
Qed.

(** C2 on the tree [a/], [a/b/], [a/b/c.js] removed altogether: the
    [unlink] of [a/b/c.js] (at index 0) comes before the [rmdir] of [a/]
    (at index 2). *)
Lemma removal_of_children_first_witness :
  (0 < 2)%nat /\
  calculatePatch Sample.tree_abc [] None =
  Return [(unlink, "a/b/c.js", new_Entry "a/b/c.js" 0 0 None);
          (rmdir, "a/b/", new_Entry "a/b/" 0 0 None);
          (rmdir, "a/", new_Entry "a/" 0 0 None)].
Proof.
  apply (removal_of_children_first Sample.tree_abc [] None
           [(unlink, "a/b/c.js", new_Entry "a/b/c.js" 0 0 None);
            (rmdir, "a/b/", new_Entry "a/b/" 0 0 None);
            (rmdir, "a/", new_Entry "a/" 0 0 None)]
           2 0 (rmdir, "a/", new_Entry "a/" 0 0 None)
           (unlink, "a/b/c.js", new_Entry "a/b/c.js" 0 0 None));
    try reflexivity.
  split; [reflexivity|discriminate].
Defined.

(** ** The tree container *)

Section ContainerFacts.

Variable md5hex : string -> string.
Variable fs : list FsCall -> FsCall -> option string.
Variable Date_now : list FsCall -> Z.

Lemma find_from_absent h path i l :
  Forall (fun r => is_Some (deref h r)) l ->
  path ∉ omap (fun r => relativePath <$> deref h r) l ->
  find_from h path i l = Return {| entry := null; index := -1 |}.
Proof.
  revert i. induction l as [|r l IH]; intros i Hobj Hnot; [reflexivity|].
  apply Forall_cons in Hobj as [[e He] Hobj]. simpl in *.
  rewrite He in *. simpl in Hnot.
  apply not_elem_of_cons in Hnot as [Hne Hnot].
  destruct (String.eqb_spec (relativePath e) path) as [Heq|_]; [congruence|].
  now apply IH.
Qed.

Lemma find_from_present h path i l :
  Forall (fun r => is_Some (deref h r)) l ->
  path ∈ omap (fun r => relativePath <$> deref h r) l ->
  exists r (k : nat) e,
    find_from h path i l = Return {| entry := r; index := Z.of_nat (i + k) |} /\
    l !! k = Some r /\ deref h r = Some e /\ relativePath e = path.
Proof.
  revert i. induction l as [|r l IH]; intros i Hobj Hin; [inversion Hin|].
  apply Forall_cons in Hobj as [[e He] Hobj]. simpl in *.
  rewrite He in *. simpl in Hin.
  destruct (String.eqb_spec (relativePath e) path) as [Heq|Hne].
  - exists r, 0%nat, e. rewrite Nat.add_0_r. auto.
  - apply elem_of_cons in Hin as [Hin|Hin]; [congruence|].
    destruct (IH (S i) Hobj Hin) as (r' & k & e' & Hfind & Hk & Hr' & He').
    exists r', (S k), e'. rewrite Hfind.
    replace (S i + k)%nat with (i + S k)%nat by lia. auto.
Qed.

(** [_track] touches nothing but the change log. *)
Lemma _track_frame operation r s :
  let s' := snd (_track operation r s) in
  store s' = store s /\ entries s' = entries s /\ calls s' = calls s /\
  _state s' = _state s /\ root s' = root s.
Proof.
  unfold _track, bind, read, get. simpl.
  destruct (deref (store s) r) as [e|]; simpl; [|auto].
  destruct (_relativePathToChange s !! relativePath e) as [position|]; simpl;
    [|auto].
  destruct (_changes s !! position) as [[[? ?] ?]|]; simpl; auto.
Qed.

(** Writing back, at the index where it was found, the entry that was
    found there changes nothing. *)
Lemma _insertAt_same r (k : nat) s :
  entries s !! k = Some r ->
  _insertAt {| entry := r; index := Z.of_nat k |} r s = (Return tt, s).
Proof.
  intros Hk. unfold _insertAt, bind, get, modify. simpl.
  destruct (Z.ltb_spec (-1) (Z.of_nat k)) as [_|]; [|lia].
  rewrite Nat2Z.id. unfold array_set.
  pose proof (lookup_lt_Some _ _ _ Hk) as Hlt.
  destruct (Nat.ltb_spec k (length (entries s))) as [_|]; [|lia].
  rewrite list_insert_id by assumption. now destruct s.
Qed.

(** What [unlinkSync], [rmdirSync] and [mkdirSync] do once the entry is
    looked up, for an entry found at index [k]. *)
Lemma tracked_write_back_frame (call : FsCall) (operation : Operation)
    (r : Ref) (k : nat) (s : State) :
  entries s !! k = Some r ->
  let s' := snd ((run fs_call fs call;
                  run _track operation r;
                  _insertAt {| entry := r; index := Z.of_nat k |} r) s) in
  entries s' = entries s /\ store s' = store s.
Proof.
  intros Hk. unfold bind at 1. unfold fs_call.
  destruct (fs (calls s) call) as [answer|]; simpl; [|auto].
  set (s1 := set_calls (calls s ++ [call]) s).
  unfold bind.
  pose proof (_track_frame operation r s1) as (Hstore & Hentries & _).
  destruct (_track operation r s1) as [[[]|e] s2]; simpl in *.
  - rewrite _insertAt_same by (rewrite Hentries; exact Hk). simpl. auto.
  - auto.
Qed.

Lemma entry_paths_frame (s s' : State) :
  entries s' = entries s -> store s' = store s -> entry_paths s' = entry_paths s.
Proof. unfold entry_paths. now intros -> ->. Qed.

(** C5. On a started container, [unlinkSync] and [rmdirSync] of a path that
    is among the entries leave the entries sequence as it is: its length is
    unchanged and an entry with that path is still there (the entry looked up
    is written back at its index). *)
Theorem removal_keeps_the_entry (s : State) (path : string) :
  _state s = STARTED -> objects_only s -> path ∈ entry_paths s ->
  let s1 := snd (unlinkSync fs path s) in
  let s2 := snd (rmdirSync fs path s) in
  (entries s1 = entries s /\
   length (entries s1) = length (entries s) /\ path ∈ entry_paths s1) /\
  (entries s2 = entries s /\
   length (entries s2) = length (entries s) /\ path ∈ entry_paths s2).
Proof.
  intros Hstarted Hobj Hin.
  destruct (find_from_present (store s) path 0 (entries s) Hobj Hin)
    as (r & k & e & Hfind & Hk & _).
  split.
  - pose proof (tracked_write_back_frame
                  (FsUnlinkSync (root s ++ "/" ++ path)) unlink r k s Hk) as H.
    simpl in H. destruct H as [He Hs].
    assert (Hrun : snd (unlinkSync fs path s) =
                   snd ((run fs_call fs (FsUnlinkSync (root s ++ "/" ++ path));
                         run _track unlink r;
                         _insertAt {| entry := r; index := Z.of_nat k |} r) s)).
    { unfold unlinkSync, _throwIfStopped, findByRelativePath.
      unfold bind at 1 2 3 4. unfold get at 1 2. simpl.
      rewrite Hstarted. simpl. rewrite Hfind. reflexivity. }
    simpl. rewrite Hrun, He. repeat split.
    erewrite entry_paths_frame; eauto.
  - pose proof (tracked_write_back_frame
                  (FsRmdirSync (root s ++ "/" ++ path)) rmdir r k s Hk) as H.
    simpl in H. destruct H as [He Hs].
    assert (Hrun : snd (rmdirSync fs path s) =
                   snd ((run fs_call fs (FsRmdirSync (root s ++ "/" ++ path));
                         run _track rmdir r;
                         _insertAt {| entry := r; index := Z.of_nat k |} r) s)).
    { unfold rmdirSync, _throwIfStopped, findByRelativePath.
      unfold bind at 1 2 3 4. unfold get at 1 2. simpl.
      rewrite Hstarted. simpl. rewrite Hfind. reflexivity. }
    simpl. rewrite Hrun, He. repeat split.
    erewrite entry_paths_frame; eauto.
Qed.

(** C9. On a stopped container each mutating operation throws the error that
    names the operation and leaves the state as it was: no file-system call
    is issued, and entries and change log are untouched. *)
Theorem stopped_container_rejects_mutation (s : State) (path content : string) :
  _state s = STOPPED ->
  unlinkSync fs path s = (Throw (Error "NOPE, operation: unlink"), s) /\
  rmdirSync fs path s = (Throw (Error "NOPE, operation: rmdir"), s) /\
  mkdirSync fs path s = (Throw (Error "NOPE, operation: mkdir"), s) /\
  writeFileSync md5hex fs Date_now path content s =
    (Throw (Error "NOPE, operation: writeFile"), s).
Proof.
  intros Hstopped.
  unfold unlinkSync, rmdirSync, mkdirSync, writeFileSync, _throwIfStopped.
  unfold bind, get. simpl. rewrite Hstopped. auto.
Qed.

(** C4. On a started container, [mkdirSync] of a path that is not among the
    entries issues the directory-creation call and then, provided that call
    returns, throws the type error of reading [relativePath] of [null]: the
    call is on record, the change log and the entries are as before. *)
Theorem mkdirSync_of_absent_path_throws (s : State) (path answer : string) :
  _state s = STARTED -> objects_only s -> path ∉ entry_paths s ->
  fs (calls s) (FsMkdirSync (root s ++ "/" ++ path)) = Some answer ->
  mkdirSync fs path s =
  (Throw (NullPropertyAccess "relativePath"),
   set_calls (calls s ++ [FsMkdirSync (root s ++ "/" ++ path)]) s).
Proof.
  intros Hstarted Hobj Hnot Hfs.
  unfold mkdirSync, _throwIfStopped, findByRelativePath.
  unfold bind at 1 2 3 4. unfold get at 1 2. simpl.
  rewrite Hstarted. simpl.
  rewrite (find_from_absent (store s) path 0 (entries s) Hobj Hnot). simpl.
  unfold bind, fs_call. rewrite Hfs. reflexivity.
Qed.

(** C6. On a started container, writing to the path of an existing entry
    content whose digest is the entry's checksum does nothing: no write call
    is issued, the change log and the entries sequence are as before and no
    entry object is created.  When the entry has no checksum yet, the file
    is first read, and the digest of what is on disk is stored in the entry
    and compared. *)
Theorem writeFileSync_same_digest_is_noop
    (s : State) (path content : string) (a : nat) (i : Z) (e : Entry) :
  _state s = STARTED ->
  findByRelativePath path s = (Return {| entry := ref a; index := i |}, s) ->
  store s !! a = Some e ->
  (if falsy (checksum e)
   then exists onDisk,
       fs (calls s) (FsReadFileSync (root s ++ "/" ++ path)) = Some onDisk /\
       md5hex onDisk = md5hex content
   else checksum e = Some (md5hex content)) ->
  writeFileSync md5hex fs Date_now path content s =
  (Return tt,
   if falsy (checksum e)
   then set_store (<[a := with_checksum (Some (md5hex content)) e]> (store s))
          (set_calls (calls s ++ [FsReadFileSync (root s ++ "/" ++ path)]) s)
   else s).
Proof.
  intros Hstarted Hfind He Hsum.
  unfold findByRelativePath in Hfind. injection Hfind as Hfind.
  unfold writeFileSync, _throwIfStopped, findByRelativePath.
  unfold bind at 1 2 3. unfold get at 1. simpl.
  rewrite Hstarted. simpl. rewrite Hfind. simpl.
  unfold bind at 1. unfold checksum_unchanged.
  unfold bind at 1. unfold truthy at 1. simpl. rewrite He.
  unfold bind at 1. unfold read at 1. simpl. rewrite He.
  destruct (falsy (checksum e)) eqn:Hfalsy.
  - destruct Hsum as (onDisk & Hfs & Hdigest).
    unfold bind, get, fs_call, write_checksum, read, ret. simpl.
    rewrite Hfs. simpl. rewrite He. simpl.
    rewrite list_lookup_insert_eq by (eapply lookup_lt_Some; eauto). simpl.
    rewrite Hdigest, String.eqb_refl. reflexivity.
  - unfold bind, read, ret. simpl. rewrite He, Hsum.
    rewrite String.eqb_refl. reflexivity.
Qed.

End ContainerFacts.

(** C6 on a container whose only entry, [a.js], has no checksum yet and is
    empty on disk: writing the empty content reads the file, stores the digest
    in the entry and stops there. *)
Lemma writeFileSync_same_digest_is_noop_witness :
  writeFileSync Sample.md5hex Sample.fs Sample.Date_now "a.js" "" Sample.one_file =
  (Return tt,
   set_store [with_checksum (Some (Sample.md5hex "")) (new_Entry "a.js" 0 0 None)]
     (set_calls [FsReadFileSync "root/a.js"] Sample.one_file)).
Proof.
  apply (writeFileSync_same_digest_is_noop Sample.md5hex Sample.fs Sample.Date_now
           Sample.one_file "a.js" "" 0%nat 0 (new_Entry "a.js" 0 0 None)).
  - reflexivity.
  - reflexivity.
  - reflexivity.
  - simpl. exists "". split; reflexivity.
Defined.

(** C5 on the container holding [a.js]. *)
Lemma removal_keeps_the_entry_witness :
  let s1 := snd (unlinkSync Sample.fs "a.js" Sample.one_file) in
  let s2 := snd (rmdirSync Sample.fs "a.js" Sample.one_file) in
  (entries s1 = [ref 0] /\ length (entries s1) = 1%nat /\ "a.js" ∈ entry_paths s1) /\
  (entries s2 = [ref 0] /\ length (entries s2) = 1%nat /\ "a.js" ∈ entry_paths s2).
Proof.
  apply (removal_keeps_the_entry Sample.fs Sample.one_file "a.js").
  - reflexivity.
  - repeat constructor. exists (new_Entry "a.js" 0 0 None). reflexivity.
  - simpl. apply elem_of_cons. now left.
Defined.

(** C9 on the stopped container. *)
Lemma stopped_container_rejects_mutation_witness :
  unlinkSync Sample.fs "a.js" Sample.stopped =
    (Throw (Error "NOPE, operation: unlink"), Sample.stopped) /\
  rmdirSync Sample.fs "a.js" Sample.stopped =
    (Throw (Error "NOPE, operation: rmdir"), Sample.stopped) /\
  mkdirSync Sample.fs "a.js" Sample.stopped =
    (Throw (Error "NOPE, operation: mkdir"), Sample.stopped) /\
  writeFileSync Sample.md5hex Sample.fs Sample.Date_now "a.js" "x" Sample.stopped =
    (Throw (Error "NOPE, operation: writeFile"), Sample.stopped).
Proof.
  apply (stopped_container_rejects_mutation
           Sample.md5hex Sample.fs Sample.Date_now Sample.stopped "a.js" "x").
  reflexivity.
Defined.

(** C4 on the container holding [a.js], asked to make the directory [c/]. *)
Lemma mkdirSync_of_absent_path_throws_witness :
  mkdirSync Sample.fs "c/" Sample.one_file =
  (Throw (NullPropertyAccess "relativePath"),
   set_calls [FsMkdirSync "root/c/"] Sample.one_file).
Proof.
  apply (mkdirSync_of_absent_path_throws Sample.fs Sample.one_file "c/" "").
  - reflexivity.
  - repeat constructor. exists (new_Entry "a.js" 0 0 None). reflexivity.
  - simpl. intros H. apply elem_of_cons in H as [H|H]; [discriminate|inversion H].
  - reflexivity.
Defined.

(** C1 fails on the code. Writing [b.js] into the sorted container that holds
    [a.js] puts the new entry before [a.js]: the scan of [_insertAt] inserts
    in front of the first entry whose path is below the new path. *)
Lemma insertion_breaks_the_order :
  let s' := snd (writeFileSync Sample.md5hex Sample.fs Sample.Date_now
                   "b.js" "x" Sample.one_file) in
  ascending (entry_paths Sample.one_file) = true /\
  fst (writeFileSync Sample.md5hex Sample.fs Sample.Date_now
         "b.js" "x" Sample.one_file) = Return tt /\
  entries s' = [ref 1; ref 0] /\
  entry_paths s' = ["b.js"; "a.js"] /\
  ascending (entry_paths s') = false.
Proof. vm_compute. repeat split. Qed.

(** * More of the code *)

(** ** Entries *)

Lemma get_last (p : string) (c : ascii) :
  String.get (String.length p - 1) p = Some c <->
  exists q, p = String.append q (String c "").
Proof.
  induction p as [|a p IH]; simpl.
  - split; [discriminate|]. intros [[|b q] H]; discriminate.
  - rewrite Nat.sub_0_r. destruct p as [|b p].
    + simpl. split.
      * intros [= ->]. now exists "".
      * intros [[|b [|b' q]] H]; cbv [String.append] in H;
          try discriminate; congruence.
    + change (String.length (String b p)) with (S (String.length p)).
      simpl in IH. rewrite Nat.sub_0_r in IH.
      change (String.get (S (String.length p)) (String a (String b p)))
        with (String.get (String.length p) (String b p)).
      rewrite IH. split.
      * intros [q ->]. now exists (String a q).
      * intros [[|a' q] H]; cbv [String.append] in H; fold String.append in H;
          [discriminate|].
        injection H as -> H. now exists q.
Qed.

(** X1. An entry built by the constructor is a directory exactly when its
    path ends with a slash, and a file exactly when it does not. *)
Theorem new_Entry_isDirectory (path : string) (size mtime : Z)
    (checksum : option string) :
  (isDirectory (new_Entry path size mtime checksum) = true <->
   exists parent, path = String.append parent "/") /\
  (isFile (new_Entry path size mtime checksum) = true <->
   ~ exists parent, path = String.append parent "/").
Proof.
  assert (H : isDirectory (new_Entry path size mtime checksum) = true <->
              exists parent, path = String.append parent "/").
  { unfold new_Entry, isDirectory, JsString.charAt. simpl.
    rewrite <- get_last.
    destruct (Z.ltb_spec (Z.of_nat (String.length path) - 1) 0) as [Hneg|Hpos].
    - assert (String.length path = 0%nat) as Hlen by lia.
      destruct path; [|discriminate]. simpl. split; discriminate.
    - replace (Z.to_nat (Z.of_nat (String.length path) - 1))
        with (String.length path - 1)%nat by lia.
      destruct (String.get (String.length path - 1) path) as [c|]; simpl.
      + destruct (Ascii.eqb_spec c "/") as [->|Hne]; simpl.
        * split; reflexivity.
        * split; [discriminate|]. intros [= ->]. now contradiction Hne.
      + split; discriminate. }
  split; [exact H|].
  unfold isFile. rewrite <- H.
  destruct (isDirectory (new_Entry path size mtime checksum)); simpl; split.
  - discriminate.
  - intros Hn. now contradiction Hn.
  - intros _. discriminate.
  - reflexivity.
Qed.

(** ** The patch calculator: what is in a patch *)

Lemma patch_finish isEqual ours theirs :
  patch isEqual ours theirs = finish (while_loop isEqual ours theirs [] []).
Proof.
  unfold patch, finish.
  now destruct (while_loop isEqual ours theirs [] []) as [[[o t] ops] rem].
Qed.

(** X2. Against an empty tree the patch is plain: from nothing, it adds
    every entry of [theirs] in order; to nothing, it removes every entry of
    [ours] in reverse order. *)
Theorem patch_with_empty (isEqual : Entry -> Entry -> bool) (A : list Entry) :
  calculatePatch [] A (Some (VFunction isEqual)) = Return (map addCommand A) /\
  calculatePatch A [] (Some (VFunction isEqual)) =
    Return (rev (map removeCommand A)).
Proof.
  unfold calculatePatch. simpl. split; f_equal; rewrite patch_finish.
  - simpl. rewrite cleanup_theirs_app. simpl. apply app_nil_r.
  - rewrite while_loop_nil_r. unfold finish. rewrite cleanup_ours_app.
    reflexivity.
Qed.

Lemma sorted_head_below (x : Entry) (l : list Entry) (e : Entry) :
  sortedUnique (x :: l) -> e ∈ l ->
  JsString.lt (relativePath x) (relativePath e) = true.
Proof. intros H He. apply sortedUnique_cons in H as [_ H]. now apply H. Qed.

Lemma sorted_tail (x : Entry) (l : list Entry) :
  sortedUnique (x :: l) -> sortedUnique l.
Proof. intros H. now apply sortedUnique_cons in H as [H _]. Qed.

Lemma lt_neq (a b : string) : JsString.lt a b = true -> a <> b.
Proof. intros H ->. rewrite JsStringFacts.lt_irrefl in H. discriminate. Qed.

(** An entry below the head of a sorted list is below, hence differs from,
    every entry of the list. *)
Lemma below_sorted (p : string) (y : Entry) (l : list Entry) (e : Entry) :
  sortedUnique (y :: l) -> JsString.lt p (relativePath y) = true ->
  e ∈ y :: l -> JsString.lt p (relativePath e) = true.
Proof.
  intros Hs Hlt He. apply elem_of_cons in He as [->|He]; [assumption|].
  eapply JsStringFacts.lt_trans; [eassumption|].
  eapply sorted_head_below; eauto.
Qed.

Lemma expected_nil_r isEqual ours c :
  expected isEqual ours [] c <-> c ∈ map removeCommand ours.
Proof.
  rewrite list_elem_of_In, in_map_iff. split.
  - intros [(x & Hx & _ & ->)|[(y & Hy & _)|(x & y & _ & Hy & _)]].
    + exists x. split; [reflexivity|now apply list_elem_of_In].
    + inversion Hy.
    + inversion Hy.
  - intros (x & <- & Hx). left. exists x.
    split; [now apply list_elem_of_In|]. split; [|reflexivity].
    intros y Hy. inversion Hy.
Qed.

Lemma expected_nil_l isEqual theirs c :
  expected isEqual [] theirs c <-> c ∈ map addCommand theirs.
Proof.
  rewrite list_elem_of_In, in_map_iff. split.
  - intros [(x & Hx & _)|[(y & Hy & _ & ->)|(x & y & Hx & _)]].
    + inversion Hx.
    + exists y. split; [reflexivity|now apply list_elem_of_In].
    + inversion Hx.
  - intros (y & <- & Hy). right; left. exists y.
    split; [now apply list_elem_of_In|]. split; [|reflexivity].
    intros x Hx. inversion Hx.
Qed.

Lemma expected_lt isEqual x ours y theirs c :
  sortedUnique (y :: theirs) ->
  JsString.lt (relativePath x) (relativePath y) = true ->
  expected isEqual (x :: ours) (y :: theirs) c <->
  c = removeCommand x \/ expected isEqual ours (y :: theirs) c.
Proof.
  intros Ht Hlt.
  assert (Hbelow : forall e, e ∈ y :: theirs -> relativePath e <> relativePath x).
  { intros e He Heq. apply (lt_neq (relativePath x) (relativePath e)); [|auto].
    eapply below_sorted; eauto. }
  unfold expected, removed_only, added_only, updated. split.
  - intros [(x' & Hx' & Hnot & ->)|[(y' & Hy' & Hnot & ->)|
                                    (x' & y' & Hx' & Hy' & Hp & Hne & ->)]].
    + apply elem_of_cons in Hx' as [->|Hx']; [now left|].
      right; left. eauto.
    + right; right; left. exists y'. repeat split; [assumption|].
      intros x' Hx'. apply Hnot. apply elem_of_cons. now right.
    + apply elem_of_cons in Hx' as [->|Hx'].
      * exfalso. apply (Hbelow y' Hy'). now symmetry.
      * right; right; right. exists x', y'. auto.
  - intros [->|[(x' & Hx' & Hnot & ->)|[(y' & Hy' & Hnot & ->)|
                                        (x' & y' & Hx' & Hy' & Hp & Hne & ->)]]].
    + left. exists x. repeat split; [apply elem_of_cons; now left|assumption].
    + left. exists x'. repeat split; [apply elem_of_cons; now right|assumption].
    + right; left. exists y'. repeat split; [assumption|].
      intros x' Hx'. apply elem_of_cons in Hx' as [->|Hx']; [|now apply Hnot].
      intros Heq. now apply (Hbelow y' Hy').
    + right; right. exists x', y'. repeat split; try assumption.
      apply elem_of_cons. now right.
Qed.

Lemma expected_gt isEqual x ours y theirs c :
  sortedUnique (x :: ours) ->
  JsString.lt (relativePath y) (relativePath x) = true ->
  expected isEqual (x :: ours) (y :: theirs) c <->
  c = addCommand y \/ expected isEqual (x :: ours) theirs c.
Proof.
  intros Ho Hlt.
  assert (Hbelow : forall e, e ∈ x :: ours -> relativePath e <> relativePath y).
  { intros e He Heq. apply (lt_neq (relativePath y) (relativePath e)); [|auto].
    eapply below_sorted; eauto. }
  unfold expected, removed_only, added_only, updated. split.
  - intros [(x' & Hx' & Hnot & ->)|[(y' & Hy' & Hnot & ->)|
                                    (x' & y' & Hx' & Hy' & Hp & Hne & ->)]].
    + right; left. exists x'. repeat split; [assumption|].
      intros y' Hy'. apply Hnot. apply elem_of_cons. now right.
    + apply elem_of_cons in Hy' as [->|Hy']; [now left|].
      right; right; left. eauto.
    + apply elem_of_cons in Hy' as [->|Hy'].
      * exfalso. now apply (Hbelow x' Hx').
      * right; right; right. exists x', y'. auto.
  - intros [->|[(x' & Hx' & Hnot & ->)|[(y' & Hy' & Hnot & ->)|
                                        (x' & y' & Hx' & Hy' & Hp & Hne & ->)]]].
    + right; left. exists y. repeat split; [apply elem_of_cons; now left|assumption].
    + left. exists x'. repeat split; [assumption|].
      intros y' Hy'. apply elem_of_cons in Hy' as [->|Hy']; [|now apply Hnot].
      intros Heq. apply (Hbelow x' Hx'). now symmetry.
    + right; left. exists y'. repeat split; [apply elem_of_cons; now right|assumption].
    + right; right. exists x', y'. repeat split; try assumption.
      apply elem_of_cons. now right.
Qed.

Lemma expected_eq isEqual x ours y theirs c :
  sortedUnique (x :: ours) -> sortedUnique (y :: theirs) ->
  relativePath x = relativePath y ->
  expected isEqual (x :: ours) (y :: theirs) c <->
  (isEqual x y = false /\ c = updateCommand y) \/ expected isEqual ours theirs c.
Proof.
  intros Ho Ht Hxy.
  assert (Hours : forall e, e ∈ ours -> relativePath e <> relativePath y).
  { intros e He Heq. rewrite <- Hxy in Heq. symmetry in Heq. revert Heq.
    apply lt_neq. eapply sorted_head_below; eauto. }
  assert (Htheirs : forall e, e ∈ theirs -> relativePath e <> relativePath x).
  { intros e He Heq. rewrite Hxy in Heq. symmetry in Heq. revert Heq.
    apply lt_neq. eapply sorted_head_below; eauto. }
  unfold expected, removed_only, added_only, updated. split.
  - intros [(x' & Hx' & Hnot & ->)|[(y' & Hy' & Hnot & ->)|
                                    (x' & y' & Hx' & Hy' & Hp & Hne & ->)]].
    + apply elem_of_cons in Hx' as [->|Hx'].
      * exfalso. apply (Hnot y); [apply elem_of_cons; now left|now symmetry].
      * right; left. exists x'. repeat split; [assumption|].
        intros y' Hy'. apply Hnot. apply elem_of_cons. now right.
    + apply elem_of_cons in Hy' as [->|Hy'].
      * exfalso. apply (Hnot x); [apply elem_of_cons; now left|assumption].
      * right; right; left. exists y'. repeat split; [assumption|].
        intros x' Hx'. apply Hnot. apply elem_of_cons. now right.
    + apply elem_of_cons in Hx' as [->|Hx'];
        apply elem_of_cons in Hy' as [->|Hy'].
      * now left.
      * exfalso. apply (Htheirs y' Hy'). now symmetry.
      * exfalso. now apply (Hours x' Hx').
      * right; right; right. exists x', y'. auto.
  - intros [[Hne ->]|[(x' & Hx' & Hnot & ->)|[(y' & Hy' & Hnot & ->)|
                                        (x' & y' & Hx' & Hy' & Hp & Hne & ->)]]].
    + right; right. exists x, y.
      repeat split; try assumption; apply elem_of_cons; now left.
    + left. exists x'. repeat split; [apply elem_of_cons; now right|].
      intros y' Hy'. apply elem_of_cons in Hy' as [->|Hy']; [|now apply Hnot].
      intros Heq. apply (Hours x' Hx'). now symmetry.
    + right; left. exists y'. repeat split; [apply elem_of_cons; now right|].
      intros x' Hx'. apply elem_of_cons in Hx' as [->|Hx']; [|now apply Hnot].
      intros Heq. apply (Htheirs y' Hy'). now symmetry.
    + right; right. exists x', y'.
      repeat split; try assumption; apply elem_of_cons; now right.
Qed.

Lemma elem_of_snoc {A} (l : list A) (x c : A) :
  c ∈ l ++ [x] <-> c ∈ l \/ c = x.
Proof. rewrite elem_of_app, list_elem_of_singleton. tauto. Qed.

Lemma elem_of_rev {A} (l : list A) (c : A) : c ∈ rev l <-> c ∈ l.
Proof. rewrite !list_elem_of_In. symmetry. apply in_rev. Qed.

Lemma finish_complete isEqual ours theirs operations removals :
  sortedUnique ours -> sortedUnique theirs ->
  forall c,
    c ∈ finish (while_loop isEqual ours theirs operations removals) <->
    c ∈ operations \/ c ∈ removals \/ expected isEqual ours theirs c.
Proof.
  pattern ours, theirs, operations, removals,
    (while_loop isEqual ours theirs operations removals).
  apply while_loop_ind; clear ours theirs operations removals;
    try (intros x ours' y theirs' ops rem r).
  - intros theirs ops rem _ _ c. unfold finish. simpl.
    rewrite cleanup_theirs_app, elem_of_app, elem_of_app, elem_of_rev.
    rewrite expected_nil_l. tauto.
  - intros ours ops rem _ _ c. unfold finish. simpl.
    rewrite cleanup_ours_app, elem_of_app, elem_of_rev, elem_of_app.
    rewrite expected_nil_r. tauto.
  - intros Hlt _ IH Ho Ht c.
    rewrite (IH (sorted_tail _ _ Ho) Ht), elem_of_snoc, expected_lt by assumption.
    tauto.
  - intros Hlt _ IH Ho Ht c.
    rewrite (IH (sorted_tail _ _ Ho) Ht), elem_of_snoc, expected_lt by assumption.
    tauto.
  - intros _ Hgt IH Ho Ht c.
    rewrite (IH Ho (sorted_tail _ _ Ht)), elem_of_snoc, expected_gt by assumption.
    tauto.
  - intros Hlt Hgt Hne _ IH Ho Ht c.
    rewrite (IH (sorted_tail _ _ Ho) (sorted_tail _ _ Ht)), elem_of_snoc.
    rewrite (expected_eq isEqual x ours' y theirs' c Ho Ht
               (neither_lt_nor_gt _ _ Hlt Hgt)).
    tauto.
  - intros Hlt Hgt Hne _ IH Ho Ht c.
    rewrite (IH (sorted_tail _ _ Ho) (sorted_tail _ _ Ht)), elem_of_snoc.
    rewrite (expected_eq isEqual x ours' y theirs' c Ho Ht
               (neither_lt_nor_gt _ _ Hlt Hgt)).
    tauto.
  - intros Hlt Hgt Heq IH Ho Ht c.
    rewrite (IH (sorted_tail _ _ Ho) (sorted_tail _ _ Ht)).
    rewrite (expected_eq isEqual x ours' y theirs' c Ho Ht
               (neither_lt_nor_gt _ _ Hlt Hgt)).
    rewrite Heq. intuition discriminate.
Qed.

(** X3. The patch between two sorted, duplicate-free entry sequences holds
    exactly: a removal for each entry of [ours] whose path [theirs] lacks,
    an add for each entry of [theirs] whose path [ours] lacks, and a [change]
    to the entry of [theirs] for each path both have with entries that
    [isEqual] tells apart. *)
Theorem patch_complete (isEqual : Entry -> Entry -> bool)
    (ours theirs : list Entry) (c : Command Entry) :
  sortedUnique ours -> sortedUnique theirs ->
  c ∈ patch isEqual ours theirs <-> expected isEqual ours theirs c.
Proof.
  intros Ho Ht. rewrite patch_finish, finish_complete by assumption.
  split; [|auto]. intros [H|[H|H]]; [inversion H|inversion H|assumption].
Qed.

(** ** The patch calculator: the order of the forward commands *)

Lemma fwd_shrink ours theirs ours' theirs' operations removals :
  ForwardInv ours theirs operations removals ->
  ours' ⊆ ours -> theirs' ⊆ theirs ->
  ForwardInv ours' theirs' operations removals.
Proof.
  intros [Hord Hbo Hbt Hrem] Ho Ht. split; auto.
Qed.

Lemma fwd_push_removals ours theirs operations removals c :
  ForwardInv ours theirs operations removals -> isForward c = false ->
  ForwardInv ours theirs operations (removals ++ [c]).
Proof.
  intros [Hord Hbo Hbt Hrem] Hc. split; auto.
  intros c' Hc'. apply elem_of_snoc in Hc' as [Hc'| ->]; auto.
Qed.

(** Pushing onto the operations list a command that, if it is a forward
    command, carries the path of an entry left in [ours] or in [theirs] and
    is below what is kept of the two. *)
Lemma fwd_push_operations ours theirs ours' theirs' operations removals c :
  ForwardInv ours theirs operations removals ->
  ours' ⊆ ours -> theirs' ⊆ theirs ->
  (isForward c = true ->
   (exists e, (e ∈ ours \/ e ∈ theirs) /\ cmd_path c = relativePath e) /\
   (forall x, x ∈ ours' -> JsString.lt (cmd_path c) (relativePath x) = true) /\
   (forall y, y ∈ theirs' -> JsString.lt (cmd_path c) (relativePath y) = true)) ->
  ForwardInv ours' theirs' (operations ++ [c]) removals.
Proof.
  intros [Hord Hbo Hbt Hrem] Ho Ht Hc. split; auto.
  - intros a b ca cb Hab Ha Hb Hfa Hfb.
    apply lookup_snoc_Some in Hb as [[Hlen Hb]|[-> ->]].
    + rewrite lookup_app_l in Ha by lia. eauto.
    + rewrite lookup_app_l in Ha by lia.
      destruct (Hc Hfb) as ((e & [He|He] & ->) & _).
      * eapply Hbo; eauto. eapply list_elem_of_lookup_2; eauto.
      * eapply Hbt; eauto. eapply list_elem_of_lookup_2; eauto.
  - intros c' x Hc' Hf Hx. apply elem_of_snoc in Hc' as [Hc'| ->].
    + eapply Hbo; eauto.
    + destruct (Hc Hf) as (_ & H1 & _). auto.
  - intros c' y Hc' Hf Hy. apply elem_of_snoc in Hc' as [Hc'| ->].
    + eapply Hbt; eauto.
    + destruct (Hc Hf) as (_ & _ & H2). auto.
Qed.

Lemma subseteq_cons_r {A} (x : A) (l : list A) : l ⊆ x :: l.
Proof. intros z Hz. apply elem_of_cons. now right. Qed.

Lemma removeCommand_dir_not_forward x :
  isDirectory x = true -> isForward (removeCommand x) = false.
Proof. intros H. unfold isForward, removeCommand, cmd_op. simpl. now rewrite H. Qed.

Lemma while_loop_forward isEqual ours theirs operations removals :
  sortedUnique ours -> sortedUnique theirs ->
  ForwardInv ours theirs operations removals ->
  let '(ours_left, theirs_left, operations', removals') :=
    while_loop isEqual ours theirs operations removals in
  sortedUnique ours_left /\ sortedUnique theirs_left /\
  ForwardInv ours_left theirs_left operations' removals'.
Proof.
  pattern ours, theirs, operations, removals,
    (while_loop isEqual ours theirs operations removals).
  apply while_loop_ind; clear ours theirs operations removals;
    try (intros x ours' y theirs' ops rem [[[o t] ops'] rem']).
  - auto.
  - auto.
  - intros Hlt Hd IH Ho Ht HI. apply IH; eauto using sorted_tail.
    apply fwd_push_removals; [|now apply removeCommand_dir_not_forward].
    eapply fwd_shrink; eauto using subseteq_cons_r.
  - intros Hlt Hd IH Ho Ht HI. apply IH; eauto using sorted_tail.
    eapply fwd_push_operations; eauto using subseteq_cons_r.
    intros _. split; [|split].
    + exists x. split; [left; apply elem_of_cons; now left|reflexivity].
    + intros e He. exact (sorted_head_below x ours' e Ho He).
    + intros e He. exact (below_sorted (relativePath x) y theirs' e Ht Hlt He).
  - intros Hlt Hgt IH Ho Ht HI. apply IH; eauto using sorted_tail.
    eapply fwd_push_operations; eauto using subseteq_cons_r.
    intros _. split; [|split].
    + exists y. split; [right; apply elem_of_cons; now left|reflexivity].
    + intros e He. exact (below_sorted (relativePath y) x ours' e Ho Hgt He).
    + intros e He. exact (sorted_head_below y theirs' e Ht He).
  - intros _ _ _ _ IH Ho Ht HI. apply IH; eauto using sorted_tail.
    apply fwd_push_removals; [|reflexivity].
    eapply fwd_shrink; eauto using subseteq_cons_r.
  - intros _ _ _ _ IH Ho Ht HI. apply IH; eauto using sorted_tail.
    eapply fwd_push_operations; eauto using subseteq_cons_r.
    discriminate.
  - intros _ _ _ IH Ho Ht HI. apply IH; eauto using sorted_tail.
    eapply fwd_shrink; eauto using subseteq_cons_r.
Qed.

Lemma cleanup_theirs_forward theirs operations removals :
  sortedUnique theirs ->
  ForwardInv [] theirs operations removals ->
  ForwardInv [] [] (cleanup_theirs theirs operations) removals.
Proof.
  revert operations. induction theirs as [|y theirs IH]; intros ops Ht HI; simpl.
  - assumption.
  - apply IH; [eapply sorted_tail; eauto|].
    eapply fwd_push_operations; eauto using subseteq_cons_r.
    intros _. split; [|split].
    + exists y. split; [right; apply elem_of_cons; now left|reflexivity].
    + intros e He. inversion He.
    + intros e He. exact (sorted_head_below y theirs e Ht He).
Qed.

Lemma ForwardInv_init ours theirs : ForwardInv ours theirs [] [].
Proof.
  split.
  - intros a b ca cb _ Ha. discriminate.
  - intros c x Hc. inversion Hc.
  - intros c y Hc. inversion Hc.
  - intros c Hc. inversion Hc.
Qed.

Lemma isAdd_isForward {E} (c : Command E) : isAdd c = true -> isForward c = true.
Proof. unfold isAdd, isForward. now destruct (cmd_op c). Qed.

Lemma removeCommand_not_add x : isAdd (removeCommand x) = false.
Proof. unfold isAdd, removeCommand, cmd_op. simpl. now destruct (isDirectory x). Qed.

(** The shape of the patch of sorted sequences, for the forward commands:
    an ascending operations list holding every add, then what was deferred,
    whose forward commands are above every add. *)
Lemma patch_forward_shape isEqual ours theirs :
  sortedUnique ours -> sortedUnique theirs ->
  exists operations deferred,
    patch isEqual ours theirs = operations ++ deferred /\
    (forall (a b : nat) ca cb,
        (a < b)%nat -> operations !! a = Some ca -> operations !! b = Some cb ->
        isForward ca = true -> isForward cb = true ->
        JsString.lt (cmd_path ca) (cmd_path cb) = true) /\
    (forall c, c ∈ deferred -> isAdd c = false) /\
    (forall c d, c ∈ operations -> isAdd c = true ->
                 d ∈ deferred -> isForward d = true ->
                 JsString.lt (cmd_path c) (cmd_path d) = true).
Proof.
  intros Ho Ht. rewrite patch_finish.
  pose proof (while_loop_forward isEqual ours theirs [] [] Ho Ht
                (ForwardInv_init ours theirs)) as H.
  pose proof (while_loop_exhausts isEqual ours theirs [] []) as Hex.
  destruct (while_loop isEqual ours theirs [] []) as [[[o t] ops] rem].
  destruct H as (Hso & Hst & HI). unfold finish.
  exists (cleanup_theirs t ops), (rev (cleanup_ours o rem)).
  split; [reflexivity|].
  assert (Hdef : forall d, d ∈ rev (cleanup_ours o rem) -> isForward d = true ->
                           exists x, x ∈ o /\ d = removeCommand x).
  { intros d Hd Hf. rewrite elem_of_rev, cleanup_ours_app, elem_of_app in Hd.
    destruct Hd as [Hd|Hd].
    - rewrite (fwd_removals _ _ _ _ HI d Hd) in Hf. discriminate.
    - apply list_elem_of_In, in_map_iff in Hd as (x & <- & Hx).
      exists x. split; [now apply list_elem_of_In|reflexivity]. }
  destruct Hex as [-> | ->].
  - pose proof (cleanup_theirs_forward t ops rem Hst HI) as [Hord _ _ _].
    split; [exact Hord|]. split.
    + intros c Hc. destruct (isAdd c) eqn:Hadd; [|reflexivity].
      destruct (Hdef c Hc (isAdd_isForward c Hadd)) as (x & Hx & _).
      inversion Hx.
    + intros c d _ _ Hd Hf. destruct (Hdef d Hd Hf) as (x & Hx & _).
      inversion Hx.
  - simpl. destruct HI as [Hord Hbo Hbt Hrem]. split; [exact Hord|]. split.
    + intros c Hc. destruct (isAdd c) eqn:Hadd; [|reflexivity].
      destruct (Hdef c Hc (isAdd_isForward c Hadd)) as (x & Hx & ->).
      now rewrite removeCommand_not_add in Hadd.
    + intros c d Hc Hadd Hd Hf. destruct (Hdef d Hd Hf) as (x & Hx & ->).
      apply Hbo; auto using isAdd_isForward.
Qed.

(** X4. In the patch between two sorted, duplicate-free entry sequences, a
    file removal or an add comes before every add of a greater path: a
    directory is made before anything is created in it, and a file is
    unlinked before a directory is made where it was. *)
Theorem forward_commands_ascend
    (ours theirs : list Entry) (isEqual : option Value)
    (out : list (Command Entry)) (i j : nat) (a b : Command Entry) :
  sortedUnique ours -> sortedUnique theirs ->
  calculatePatch ours theirs isEqual = Return out ->
  out !! i = Some a -> isForward a = true ->
  out !! j = Some b -> isAdd b = true ->
  JsString.lt (cmd_path a) (cmd_path b) = true ->
  (i < j)%nat.
Proof.
  intros Ho Ht Hout Ha Hfa Hb Hab Hlt.
  assert (exists f, out = patch f ours theirs) as [f ->].
  { unfold calculatePatch in Hout.
    destruct (_ && _); [discriminate|]. injection Hout as <-. eauto. }
  destruct (patch_forward_shape f ours theirs Ho Ht)
    as (ops & def & Heq & Hord & Hdef & Habove).
  rewrite Heq in Ha, Hb.
  apply lookup_app_Some in Hb as [Hb|[_ Hb]].
  2:{ apply list_elem_of_lookup_2 in Hb. rewrite (Hdef b Hb) in Hab. discriminate. }
  apply lookup_app_Some in Ha as [Ha|[_ Ha]].
  - destruct (Nat.lt_trichotomy i j) as [|[->|Hji]]; [assumption| |]; exfalso.
    + rewrite Ha in Hb. injection Hb as ->.
      now rewrite JsStringFacts.lt_irrefl in Hlt.
    + pose proof (Hord j i b a Hji Hb Ha (isAdd_isForward b Hab) Hfa) as Hgt.
      exact (JsStringFacts.lt_asym _ _ Hlt Hgt).
  - exfalso. apply list_elem_of_lookup_2 in Ha, Hb.
    pose proof (Habove b a Hb Hab Ha Hfa) as Hgt.
    exact (JsStringFacts.lt_asym _ _ Hlt Hgt).
Qed.

(** ** The patch calculator: no path twice *)

Lemma NoDup_map_snoc {A B} (f : A -> B) (l : list A) (x : A) :
  NoDup (map f l) -> (forall c, c ∈ l -> f c <> f x) -> NoDup (map f (l ++ [x])).
Proof.
  intros Hl Hx. rewrite map_app. simpl. apply NoDup_app. split; [assumption|].
  split; [|apply NoDup_singleton].
  intros p Hp Hp'. apply list_elem_of_singleton in Hp'. subst p.
  apply list_elem_of_In, in_map_iff in Hp as (c & Hc & Hin).
  apply (Hx c); [now apply list_elem_of_In|assumption].
Qed.

Lemma path_shrink ours theirs ours' theirs' operations removals :
  PathInv ours theirs operations removals ->
  ours' ⊆ ours -> theirs' ⊆ theirs ->
  PathInv ours' theirs' operations removals.
Proof. intros [Hbo Hbt Hno Hnr Hd] Ho Ht. split; eauto. Qed.

(** Pushing a command that carries the path of an entry [e] left in [ours] or
    in [theirs], when [e] is below what is kept of the two. *)
Lemma path_push ours theirs ours' theirs' operations removals c e :
  PathInv ours theirs operations removals ->
  ours' ⊆ ours -> theirs' ⊆ theirs ->
  e ∈ ours \/ e ∈ theirs -> cmd_path c = relativePath e ->
  (forall x, x ∈ ours' -> JsString.lt (relativePath e) (relativePath x) = true) ->
  (forall y, y ∈ theirs' -> JsString.lt (relativePath e) (relativePath y) = true) ->
  PathInv ours' theirs' (operations ++ [c]) removals /\
  PathInv ours' theirs' operations (removals ++ [c]).
Proof.
  intros [Hbo Hbt Hno Hnr Hd] Ho Ht He Hc Hbo' Hbt'.
  assert (Hfresh : forall c', c' ∈ operations \/ c' ∈ removals ->
                              cmd_path c' <> cmd_path c).
  { intros c' Hc'. rewrite Hc. apply lt_neq. destruct He; eauto. }
  split; split.
  - intros c' x [Hc'|Hc'] Hx; [apply elem_of_snoc in Hc' as [Hc'| ->]|]; eauto.
    rewrite Hc. auto.
  - intros c' y [Hc'|Hc'] Hy; [apply elem_of_snoc in Hc' as [Hc'| ->]|]; eauto.
    rewrite Hc. auto.
  - apply NoDup_map_snoc; auto.
  - assumption.
  - intros c' d Hc' Hd'. apply elem_of_snoc in Hc' as [Hc'| ->]; [auto|].
    intros Heq. now apply (Hfresh d (or_intror Hd')).
  - intros c' x [Hc'|Hc'] Hx; [|apply elem_of_snoc in Hc' as [Hc'| ->]]; eauto.
    rewrite Hc. auto.
  - intros c' y [Hc'|Hc'] Hy; [|apply elem_of_snoc in Hc' as [Hc'| ->]]; eauto.
    rewrite Hc. auto.
  - assumption.
  - apply NoDup_map_snoc; auto.
  - intros c' d Hc' Hd'. apply elem_of_snoc in Hd' as [Hd'| ->]; [auto|].
    now apply Hfresh; left.
Qed.

Lemma while_loop_paths isEqual ours theirs operations removals :
  sortedUnique ours -> sortedUnique theirs ->
  PathInv ours theirs operations removals ->
  let '(ours_left, theirs_left, operations', removals') :=
    while_loop isEqual ours theirs operations removals in
  sortedUnique ours_left /\ sortedUnique theirs_left /\
  PathInv ours_left theirs_left operations' removals'.
Proof.
  pattern ours, theirs, operations, removals,
    (while_loop isEqual ours theirs operations removals).
  apply while_loop_ind; clear ours theirs operations removals;
    try (intros x ours' y theirs' ops rem [[[o t] ops'] rem']).
  - auto.
  - auto.
  - intros Hlt Hd IH Ho Ht HI. apply IH; eauto using sorted_tail.
    apply (path_push (x :: ours') (y :: theirs') ours' (y :: theirs') ops rem
             (removeCommand x) x); auto using subseteq_cons_r.
    + left. apply elem_of_cons. now left.
    + intros e He. exact (sorted_head_below x ours' e Ho He).
    + intros e He. exact (below_sorted (relativePath x) y theirs' e Ht Hlt He).
  - intros Hlt Hd IH Ho Ht HI. apply IH; eauto using sorted_tail.
    apply (path_push (x :: ours') (y :: theirs') ours' (y :: theirs') ops rem
             (removeCommand x) x); auto using subseteq_cons_r.
    + left. apply elem_of_cons. now left.
    + intros e He. exact (sorted_head_below x ours' e Ho He).
    + intros e He. exact (below_sorted (relativePath x) y theirs' e Ht Hlt He).
  - intros Hlt Hgt IH Ho Ht HI. apply IH; eauto using sorted_tail.
    apply (path_push (x :: ours') (y :: theirs') (x :: ours') theirs' ops rem
             (addCommand y) y); auto using subseteq_cons_r.
    + right. apply elem_of_cons. now left.
    + intros e He. exact (below_sorted (relativePath y) x ours' e Ho Hgt He).
    + intros e He. exact (sorted_head_below y theirs' e Ht He).
  - intros Hlt Hgt _ _ IH Ho Ht HI. apply IH; eauto using sorted_tail.
    apply (path_push (x :: ours') (y :: theirs') ours' theirs' ops rem
             (updateCommand y) y); auto using subseteq_cons_r.
    + right. apply elem_of_cons. now left.
    + intros e He. rewrite <- (neither_lt_nor_gt _ _ Hlt Hgt).
      exact (sorted_head_below x ours' e Ho He).
    + intros e He. exact (sorted_head_below y theirs' e Ht He).
  - intros Hlt Hgt _ _ IH Ho Ht HI. apply IH; eauto using sorted_tail.
    apply (path_push (x :: ours') (y :: theirs') ours' theirs' ops rem
             (updateCommand y) y); auto using subseteq_cons_r.
    + right. apply elem_of_cons. now left.
    + intros e He. rewrite <- (neither_lt_nor_gt _ _ Hlt Hgt).
      exact (sorted_head_below x ours' e Ho He).
    + intros e He. exact (sorted_head_below y theirs' e Ht He).
  - intros _ _ _ IH Ho Ht HI. apply IH; eauto using sorted_tail.
    eapply path_shrink; eauto using subseteq_cons_r.
Qed.

Lemma cleanup_ours_paths ours operations removals :
  sortedUnique ours -> PathInv ours [] operations removals ->
  PathInv [] [] operations (cleanup_ours ours removals).
Proof.
  revert removals. induction ours as [|x ours IH]; intros rem Ho HI; simpl.
  - assumption.
  - apply IH; [eapply sorted_tail; eauto|].
    apply (path_push (x :: ours) [] ours [] operations rem (removeCommand x) x);
      auto using subseteq_cons_r.
    + left. apply elem_of_cons. now left.
    + intros e He. exact (sorted_head_below x ours e Ho He).
    + intros e He. inversion He.
Qed.

Lemma cleanup_theirs_paths theirs operations removals :
  sortedUnique theirs -> PathInv [] theirs operations removals ->
  PathInv [] [] (cleanup_theirs theirs operations) removals.
Proof.
  revert operations. induction theirs as [|y theirs IH]; intros ops Ht HI; simpl.
  - assumption.
  - apply IH; [eapply sorted_tail; eauto|].
    apply (path_push [] (y :: theirs) [] theirs ops removals (addCommand y) y);
      auto using subseteq_cons_r.
    + right. apply elem_of_cons. now left.
    + intros e He. inversion He.
    + intros e He. exact (sorted_head_below y theirs e Ht He).
Qed.

Lemma PathInv_init ours theirs : PathInv ours theirs [] [].
Proof.
  split.
  - intros c x [Hc|Hc]; inversion Hc.
  - intros c y [Hc|Hc]; inversion Hc.
  - constructor.
  - constructor.
  - intros c d Hc. inversion Hc.
Qed.

(** X5. The patch between two sorted, duplicate-free entry sequences names
    each path at most once: no path is, say, both removed and added. *)
Theorem patch_paths_distinct (isEqual : Entry -> Entry -> bool)
    (ours theirs : list Entry) :
  sortedUnique ours -> sortedUnique theirs ->
  NoDup (map cmd_path (patch isEqual ours theirs)).
Proof.
  intros Ho Ht. rewrite patch_finish.
  pose proof (while_loop_paths isEqual ours theirs [] [] Ho Ht
                (PathInv_init ours theirs)) as H.
  pose proof (while_loop_exhausts isEqual ours theirs [] []) as Hex.
  destruct (while_loop isEqual ours theirs [] []) as [[[o t] ops] rem].
  destruct H as (Hso & Hst & HI). unfold finish.
  assert (Hfin : PathInv [] [] (cleanup_theirs t ops) (cleanup_ours o rem)).
  { destruct Hex as [-> | ->]; simpl.
    - now apply cleanup_theirs_paths.
    - now apply cleanup_ours_paths. }
  destruct Hfin as [_ _ Hno Hnr Hd].
  rewrite map_app, map_rev. apply NoDup_app. split; [assumption|]. split.
  - intros p Hp Hp'. apply (proj1 (elem_of_rev _ _)) in Hp'.
    apply list_elem_of_In, in_map_iff in Hp as (c & <- & Hc).
    apply list_elem_of_In, in_map_iff in Hp' as (d & Heq & Hd').
    apply (Hd c d); [now apply list_elem_of_In|now apply list_elem_of_In|auto].
  - apply NoDup_ListNoDup, NoDup_rev, NoDup_ListNoDup. assumption.
Qed.

(** ** The default equality predicate, once more *)

Lemma defaultIsEqual_true (a b : Entry) :
  defaultIsEqual a b = true <->
  (isDirectory a = true /\ isDirectory b = true) \/
  (size a = size b /\ mtime a = mtime b /\ mode a = mode b).
Proof.
  unfold defaultIsEqual.
  destruct (isDirectory a) eqn:Ha, (isDirectory b) eqn:Hb; simpl;
    rewrite ?andb_true_iff, ?Z.eqb_eq; intuition discriminate.
Qed.

(** X6. The default equality predicate is an equivalence on entries:
    reflexive, symmetric and transitive. *)
Theorem defaultIsEqual_equivalence :
  (forall a, defaultIsEqual a a = true) /\
  (forall a b, defaultIsEqual a b = defaultIsEqual b a) /\
  (forall a b c, defaultIsEqual a b = true -> defaultIsEqual b c = true ->
                 defaultIsEqual a c = true).
Proof.
  split; [exact defaultIsEqual_refl|]. split.
  - intros a b. unfold defaultIsEqual.
    rewrite (andb_comm (isDirectory b)).
    now rewrite (Z.eqb_sym (size b)), (Z.eqb_sym (mtime b)), (Z.eqb_sym (mode b)).
  - intros a b c Hab Hbc. apply defaultIsEqual_true in Hab, Hbc.
    apply defaultIsEqual_true.
    assert (Hmode : forall u v, mode u = mode v -> isDirectory u = isDirectory v).
    { intros u v H. unfold isDirectory. now rewrite H. }
    destruct Hab as [[Ha Hb]|(Hs & Hm & Hmo)], Hbc as [[Hb' Hc]|(Hs' & Hm' & Hmo')].
    + now left.
    + left. split; [assumption|]. now rewrite <- (Hmode b c Hmo').
    + left. split; [|assumption]. now rewrite (Hmode a b Hmo).
    + right. repeat split; congruence.
Qed.

Lemma defaultIsEqual_equivalence_witness :
  defaultIsEqual (mkEntry "a/" 16877 1 2 None) (mkEntry "a/" 16877 5 6 None) = true.
Proof.
  destruct defaultIsEqual_equivalence as (_ & _ & Htrans).
  apply (Htrans _ (mkEntry "a/" 16895 3 4 None)); reflexivity.
Defined.

(** X7. Between two trees built from path lists the default predicate never
    asks for a [change]: such trees differ by adds and removals only. *)
Theorem fromPaths_patch_has_no_change (paths paths' : list string)
    (c : Command Entry) :
  c ∈ patch defaultIsEqual (fromPaths paths) (fromPaths paths') ->
  cmd_op c <> change.
Proof.
  intros Hc Hop.
  pose proof (patch_changes defaultIsEqual (fromPaths paths) (fromPaths paths')) as H.
  rewrite Forall_forall in H.
  destruct (H c Hc Hop) as (x & y & Hx & Hy & Hpath & Hne & _).
  apply list_elem_of_In, in_map_iff in Hx as (p & <- & _).
  apply list_elem_of_In, in_map_iff in Hy as (q & <- & _).
  simpl in Hpath. subst q. rewrite defaultIsEqual_refl in Hne. discriminate.
Qed.

Lemma fromPaths_patch_has_no_change_witness :
  cmd_op (removeCommand (new_Entry "a/" 0 0 None)) <> change.
Proof.
  apply (fromPaths_patch_has_no_change ["a/"; "a/b/"; "a/b/c.js"] []).
  apply elem_of_cons. right. apply elem_of_cons. right.
  apply elem_of_cons. now left.
Defined.

Lemma patch_complete_witness :
  removeCommand (new_Entry "a/" 0 0 None) ∈ patch defaultIsEqual Sample.tree_abc [] <->
  expected defaultIsEqual Sample.tree_abc [] (removeCommand (new_Entry "a/" 0 0 None)).
Proof.
  apply (patch_complete defaultIsEqual Sample.tree_abc []); reflexivity.
Defined.

Lemma forward_commands_ascend_witness : (0 < 1)%nat.
Proof.
  apply (forward_commands_ascend [] (fromPaths ["x/"; "x/y.js"]) None
           [addCommand (new_Entry "x/" 0 0 None);
            addCommand (new_Entry "x/y.js" 0 0 None)]
           0 1 (addCommand (new_Entry "x/" 0 0 None))
           (addCommand (new_Entry "x/y.js" 0 0 None)));
    reflexivity.
Defined.

Lemma patch_paths_distinct_witness :
  NoDup (map cmd_path (patch defaultIsEqual Sample.tree_abc Sample.two_files)).
Proof.
  apply (patch_paths_distinct defaultIsEqual Sample.tree_abc Sample.two_files);
    reflexivity.
Defined.

(** ** The container: lookup *)

Lemma find_from_sound h path i l r :
  find_from h path i l = Return r ->
  (r = {| entry := null; index := -1 |} /\
   Forall (fun r' => is_Some (deref h r')) l /\
   path ∉ omap (fun r' => relativePath <$> deref h r') l) \/
  (exists (k : nat) e,
      index r = Z.of_nat (i + k) /\ l !! k = Some (entry r) /\
      deref h (entry r) = Some e /\ relativePath e = path /\
      forall (j : nat) r' e', (j < k)%nat -> l !! j = Some r' ->
                              deref h r' = Some e' -> relativePath e' <> path).
Proof.
  revert i. induction l as [|r0 l IH]; intros i Hfind; simpl in Hfind.
  - injection Hfind as <-. left. split; [reflexivity|]. split; [constructor|].
    intros H. inversion H.
  - destruct (deref h r0) as [e0|] eqn:He0; [|discriminate].
    destruct (String.eqb_spec (relativePath e0) path) as [Heq|Hne].
    + injection Hfind as <-. right. exists 0%nat, e0. simpl.
      rewrite Nat.add_0_r. repeat split; try assumption. intros j r' e' Hj. lia.
    + destruct (IH (S i) Hfind) as [(-> & Hall & Hnot)|(k & e & Hi & Hk & He & Hp & Hfirst)].
      * left. split; [reflexivity|]. split.
        -- constructor; [rewrite He0; eauto|assumption].
        -- simpl. rewrite He0. simpl. intros H.
           apply elem_of_cons in H as [H|H]; [congruence|contradiction].
      * right. exists (S k), e. replace (i + S k)%nat with (S i + k)%nat by lia.
        repeat split; try assumption.
        intros [|j] r' e' Hj Hr' He'; simpl in Hr'.
        -- injection Hr' as <-. rewrite He0 in He'. now injection He' as <-.
        -- apply (Hfirst j r' e'); [lia|assumption|assumption].
Qed.

(** X8. On a container whose entries are all entry objects,
    [findByRelativePath] never throws and leaves the state alone; it answers
    [{entry: null, index: -1}] exactly when no entry has the path, and
    otherwise the first entry with the path together with its index. *)
Theorem findByRelativePath_spec (s : State) (path : string) :
  objects_only s ->
  exists result,
    findByRelativePath path s = (Return result, s) /\
    (((path ∉ entry_paths s) /\ result = {| entry := null; index := -1 |}) \/
     (path ∈ entry_paths s /\
      exists (k : nat) e,
        index result = Z.of_nat k /\ entries s !! k = Some (entry result) /\
        deref (store s) (entry result) = Some e /\ relativePath e = path /\
        forall (j : nat) r' e', (j < k)%nat -> entries s !! j = Some r' ->
                                deref (store s) r' = Some e' ->
                                relativePath e' <> path)).
Proof.
  intros Hobj. unfold findByRelativePath.
  destruct (find_from (store s) path 0 (entries s)) as [result|e] eqn:Hfind.
  - exists result. split; [reflexivity|].
    destruct (find_from_sound _ _ _ _ _ Hfind)
      as [(-> & _ & Hnot)|(k & e & Hi & Hk & He & Hp & Hfirst)].
    + left. auto.
    + right. split.
      * unfold entry_paths. apply list_elem_of_omap. exists (entry result).
        split; [eapply list_elem_of_lookup_2; eauto|]. rewrite He. simpl. congruence.
      * exists k, e. auto.
  - exfalso. destruct (decide (path ∈ entry_paths s)) as [Hin|Hnot].
    + destruct (find_from_present (store s) path 0 (entries s) Hobj Hin)
        as (r & k & e' & Hf & _). congruence.
    + rewrite (find_from_absent (store s) path 0 (entries s) Hobj Hnot) in Hfind.
      discriminate.
Qed.

Lemma findByRelativePath_spec_witness :
  exists result,
    findByRelativePath "a.js" Sample.one_file = (Return result, Sample.one_file) /\
    ((("a.js" ∉ entry_paths Sample.one_file) /\
      result = {| entry := null; index := -1 |}) \/
     ("a.js" ∈ entry_paths Sample.one_file /\
      exists (k : nat) e,
        index result = Z.of_nat k /\
        entries Sample.one_file !! k = Some (entry result) /\
        deref (store Sample.one_file) (entry result) = Some e /\
        relativePath e = "a.js" /\
        forall (j : nat) r' e', (j < k)%nat ->
                                entries Sample.one_file !! j = Some r' ->
                                deref (store Sample.one_file) r' = Some e' ->
                                relativePath e' <> "a.js")).
Proof.
  apply (findByRelativePath_spec Sample.one_file "a.js").
  repeat constructor. exists (new_Entry "a.js" 0 0 None). reflexivity.
Defined.

(** ** Reasoning about statements *)

Lemma hoare_ret {A} (a : A) (P : State -> Prop) (Q : A -> State -> Prop) R :
  (forall s, P s -> Q a s) -> hoare P (ret a) Q R.
Proof. intros H s Hs. exact (H s Hs). Qed.

Lemma hoare_throw {A} (e : Exn) (Q : A -> State -> Prop) (R : Exn -> State -> Prop) :
  hoare (R e) (throw e) Q R.
Proof. intros s Hs. exact Hs. Qed.

Lemma hoare_bind {A B} (m : M A) (k : A -> M B) P Q Q' R :
  hoare P m Q R -> (forall a, hoare (Q a) (k a) Q' R) ->
  hoare P (bind m k) Q' R.
Proof.
  intros Hm Hk s Hs. unfold bind. specialize (Hm s Hs).
  destruct (m s) as [[a|e] s']; [apply (Hk a s' Hm)|exact Hm].
Qed.

Lemma hoare_weaken {A} (m : M A) (P P' : State -> Prop) Q Q' (R R' : Exn -> State -> Prop) :
  hoare P' m Q' R' ->
  (forall s, P s -> P' s) -> (forall a s, Q' a s -> Q a s) ->
  (forall e s, R' e s -> R e s) ->
  hoare P m Q R.
Proof.
  intros Hm HP HQ HR s Hs. specialize (Hm s (HP s Hs)).
  destruct (m s) as [[a|e] s']; auto.
Qed.

Lemma hoare_get P R : hoare P get (fun s0 s => s = s0 /\ P s) R.
Proof. intros s Hs. simpl. auto. Qed.

Lemma hoare_modify (f : State -> State) (P : State -> Prop) (Q : unit -> State -> Prop) R :
  (forall s, P s -> Q tt (f s)) -> hoare P (modify f) Q R.
Proof. intros H s Hs. simpl. auto. Qed.

Lemma hoare_case {A} (m : M A) (P : State -> Prop) Q R :
  (forall s, P s -> hoare (fun s' => s' = s) m Q R) -> hoare P m Q R.
Proof. intros H s Hs. exact (H s Hs s eq_refl). Qed.

(** ** The container: the change log *)

Lemma tracker_ok_start (s : State) : tracker_ok (snd (start s)).
Proof.
  intros p i. simpl. rewrite lookup_empty. split; [discriminate|].
  intros (op & r & H). discriminate.
Qed.

Lemma tracker_ok_NoDup (s : State) :
  tracker_ok s -> NoDup (map cmd_path (_changes s)).
Proof.
  intros Hok. change (NoDup (cmd_path <$> _changes s)).
  apply NoDup_alt. intros i j p Hi Hj.
  rewrite list_lookup_fmap in Hi, Hj.
  destruct (_changes s !! i) as [[[op pi] r]|] eqn:Ei; [|discriminate].
  destruct (_changes s !! j) as [[[op' pj] r']|] eqn:Ej; [|discriminate].
  cbv in Hi, Hj. injection Hi as ->. injection Hj as ->.
  assert (H1 : _relativePathToChange s !! p = Some i) by (apply Hok; eauto).
  assert (H2 : _relativePathToChange s !! p = Some j) by (apply Hok; eauto).
  congruence.
Qed.

(** What [_track] does to a consistent change log, for an entry object. *)
Lemma _track_exec operation r e s :
  tracker_ok s -> deref (store s) r = Some e ->
  exists changes' map',
    _track operation r s = (Return tt, set_changes changes' map' s) /\
    tracker_ok (set_changes changes' map' s) /\
    (exists i, map' !! relativePath e = Some i /\
               changes' !! i = Some (operation, relativePath e, r)) /\
    length changes' =
      (if _relativePathToChange s !! relativePath e is Some _
       then length (_changes s) else S (length (_changes s))) /\
    (forall (j : nat) c, _changes s !! j = Some c ->
                         cmd_path c <> relativePath e -> changes' !! j = Some c).
Proof.
  intros Hok He. unfold _track, bind, read, get. simpl. rewrite He. simpl.
  destruct (_relativePathToChange s !! relativePath e) as [position|] eqn:Hpos.
  - destruct (proj1 (Hok _ _) Hpos) as (op0 & r0 & Hrec). rewrite Hrec. simpl.
    pose proof (lookup_lt_Some _ _ _ Hrec) as Hlt.
    eexists _, _. split; [reflexivity|]. split; [|split; [|split]].
    + intros p i. simpl. rewrite (Hok p i). split.
      * intros (op & r' & Hi). destruct (decide (i = position)) as [->|Hne].
        -- rewrite Hrec in Hi. injection Hi as -> -> ->.
           exists operation, r. now apply list_lookup_insert_eq.
        -- exists op, r'. now rewrite list_lookup_insert_ne.
      * intros (op & r' & Hi). destruct (decide (i = position)) as [->|Hne].
        -- rewrite list_lookup_insert_eq in Hi by assumption.
           injection Hi as <- <- <-. eauto.
        -- rewrite list_lookup_insert_ne in Hi by auto. eauto.
    + exists position. split; [assumption|]. now apply list_lookup_insert_eq.
    + apply length_insert.
    + intros j c Hj Hc. destruct (decide (j = position)) as [->|Hne].
      * assert (Some c = Some (op0, relativePath e, r0)) as [= ->]
          by (etransitivity; [symmetry; exact Hj|exact Hrec]).
        now contradiction Hc.
      * now rewrite list_lookup_insert_ne.
  - simpl. eexists _, _. split; [reflexivity|]. split; [|split; [|split]].
    + intros p i. simpl. destruct (decide (relativePath e = p)) as [<-|Hne].
      * rewrite lookup_insert_eq. split.
        -- intros [= <-]. exists operation, r. apply list_lookup_middle. reflexivity.
        -- intros (op & r' & Hi). apply lookup_snoc_Some in Hi as [[_ Hi]|[-> _]];
             [|reflexivity].
           assert (Hin : _relativePathToChange s !! relativePath e = Some i)
             by (apply Hok; eauto). congruence.
      * rewrite lookup_insert_ne by assumption. rewrite (Hok p i). split.
        -- intros (op & r' & Hi). exists op, r'.
           rewrite lookup_app_l; [assumption|eapply lookup_lt_Some; eauto].
        -- intros (op & r' & Hi). apply lookup_snoc_Some in Hi as [[_ Hi]|[_ Heq]].
           ++ eauto.
           ++ injection Heq as _ Hp _. now contradiction Hne.
    + exists (length (_changes s)). split; [apply lookup_insert_eq|].
      apply list_lookup_middle. reflexivity.
    + rewrite length_app. simpl. lia.
    + intros j c Hj _. rewrite lookup_app_l; [assumption|eapply lookup_lt_Some; eauto].
Qed.

(** X9. On a consistent change log, tracking an operation on an entry never
    throws and keeps one record per path: a path tracked before has its
    record overwritten in place, with the new operation and entry; a new path
    gets a record at the end; the records of other paths stay as they are. *)
Theorem _track_keeps_one_record_per_path
    (operation : Operation) (r : Ref) (e : Entry) (s : State) :
  tracker_ok s -> deref (store s) r = Some e ->
  exists s',
    _track operation r s = (Return tt, s') /\
    tracker_ok s' /\ NoDup (map cmd_path (_changes s')) /\
    (exists i, _relativePathToChange s' !! relativePath e = Some i /\
               _changes s' !! i = Some (operation, relativePath e, r)) /\
    length (_changes s') =
      (if _relativePathToChange s !! relativePath e is Some _
       then length (_changes s) else S (length (_changes s))) /\
    (forall (j : nat) c, _changes s !! j = Some c ->
                         cmd_path c <> relativePath e ->
                         _changes s' !! j = Some c).
Proof.
  intros Hok He.
  destruct (_track_exec operation r e s Hok He)
    as (changes' & map' & Hrun & Hok' & Hrec & Hlen & Hother).
  exists (set_changes changes' map' s). split; [assumption|].
  split; [assumption|]. split; [now apply tracker_ok_NoDup|]. auto.
Qed.

(** ** The container: what every mutation keeps, and what a failure leaves *)

Lemma same_tree_refl s : same_tree s s.
Proof. repeat split. Qed.

Lemma store_extends_refl s : store_extends s s.
Proof. intros a e H. eauto. Qed.

Lemma store_extends_trans s0 s1 s2 :
  store_extends s0 s1 -> store_extends s1 s2 -> store_extends s0 s2.
Proof.
  intros H1 H2 a e He. destruct (H1 a e He) as (e1 & He1 & Hp1).
  destruct (H2 a e1 He1) as (e2 & He2 & Hp2). exists e2. split; congruence.
Qed.

Lemma store_extends_deref s0 s r :
  store_extends s0 s -> is_Some (deref (store s0) r) -> is_Some (deref (store s) r).
Proof.
  intros H [e He]. destruct r as [|a]; [discriminate|]. simpl in *.
  destruct (H a e He) as (e' & He' & _). eauto.
Qed.

(** A state that has the tree of a consistent state, over a store that
    extends its store, is consistent. *)
Lemma consistent_same_tree s0 s :
  same_tree s0 s -> store_extends s0 s -> consistent s0 -> consistent s.
Proof.
  intros (He & Hc & Hm & _) Hext [Hobj Hok]. split.
  - unfold objects_only in *. rewrite He.
    eapply Forall_impl; [exact Hobj|]. intros r. now apply store_extends_deref.
  - intros p i. rewrite Hc, Hm. apply Hok.
Qed.

Section MutationFacts.

Variable md5hex : string -> string.
Variable fs : list FsCall -> FsCall -> option string.
Variable Date_now : list FsCall -> Z.

(** The state that a mutation started in, and what holds when it fails and
    when it returns. *)
Variable s0 : State.

Let unchanged (s : State) : Prop := same_tree s0 s /\ store_extends s0 s.
Let failed (_ : Exn) (s : State) : Prop := unchanged s.

Lemma hoare_throwIfStopped (operation : string) :
  hoare (fun s => s = s0) (_throwIfStopped operation) (fun _ s => s = s0) failed.
Proof.
  intros s ->. unfold _throwIfStopped, bind, get. simpl.
  destruct (_state s0); simpl; [reflexivity|].
  split; [apply same_tree_refl|apply store_extends_refl].
Qed.

Lemma hoare_findByRelativePath (path : string) :
  hoare (fun s => s = s0) (findByRelativePath path)
        (fun result s =>
           s = s0 /\
           find_from (store s0) path 0 (entries s0) = Return result)
        failed.
Proof.
  intros s ->. unfold findByRelativePath.
  destruct (find_from (store s0) path 0 (entries s0)); simpl; [auto|].
  split; [apply same_tree_refl|apply store_extends_refl].
Qed.

Lemma hoare_fs_call (call : FsCall) :
  hoare unchanged (fs_call fs call) (fun _ => unchanged) failed.
Proof.
  intros s [Htree Hext]. unfold fs_call.
  destruct (fs (calls s) call); simpl; (split; [exact Htree|exact Hext]).
Qed.

Lemma hoare_truthy (r : Ref) (P : State -> Prop) :
  hoare P (truthy r) (fun _ => P) failed.
Proof. intros s Hs. exact Hs. Qed.

Lemma hoare_alloc (e : Entry) :
  hoare unchanged (alloc e)
        (fun r s => unchanged s /\ is_Some (deref (store s) r))
        failed.
Proof.
  intros s [Htree Hext]. simpl. split; [split|].
  - exact Htree.
  - intros a e' He'. destruct (Hext a e' He') as (e'' & He'' & Hp).
    exists e''. split; [|assumption]. simpl.
    rewrite lookup_app_l; [assumption|eapply lookup_lt_Some; eauto].
  - exists e. simpl. apply list_lookup_middle. reflexivity.
Qed.

Lemma hoare_write_checksum (r : Ref) (c : string) :
  hoare unchanged (write_checksum r c) (fun _ => unchanged) failed.
Proof.
  intros s [Htree Hext]. unfold write_checksum.
  destruct r as [|a]; [split; assumption|].
  destruct (store s !! a) as [e|] eqn:He; simpl; [|split; assumption].
  split; [exact Htree|].
  intros a' e' He'. destruct (Hext a' e' He') as (e'' & He'' & Hp).
  destruct (decide (a = a')) as [->|Hne].
  - exists (with_checksum (Some c) e). split.
    + simpl. apply list_lookup_insert_eq. eapply lookup_lt_Some; eauto.
    + simpl. congruence.
  - exists e''. split; [|assumption]. simpl. now rewrite list_lookup_insert_ne.
Qed.

Lemma hoare_read {A} (r : Ref) (field : Entry -> A) (name : string)
    (P : State -> Prop) :
  (forall s, P s -> unchanged s) ->
  hoare P (read r field name) (fun _ => P) failed.
Proof.
  intros HP s Hs. unfold read. destruct (deref (store s) r); simpl; auto.
  now apply HP.
Qed.

Lemma hoare_checksum_unchanged (path : string) (r : Ref) (digest : string) :
  hoare unchanged (checksum_unchanged md5hex fs path r digest)
        (fun _ => unchanged) failed.
Proof.
  unfold checksum_unchanged.
  apply hoare_bind with (Q := fun _ => unchanged); [apply hoare_truthy|].
  intros [|]; [|apply hoare_ret; auto].
  apply hoare_bind with (Q := fun _ => unchanged); [apply hoare_read; auto|].
  intros c.
  apply hoare_bind with (Q := fun _ => unchanged).
  - destruct (falsy c); [|apply hoare_ret; auto].
    apply hoare_bind with (Q := fun s1 s => s = s1 /\ unchanged s);
      [apply hoare_get|].
    intros s1.
    apply hoare_bind with (Q := fun _ => unchanged).
    + eapply hoare_weaken; [apply hoare_fs_call| | |]; simpl; tauto.
    + intros onDisk. apply hoare_write_checksum.
  - intros _.
    apply hoare_bind with (Q := fun _ => unchanged); [apply hoare_read; auto|].
    intros c'. apply hoare_ret; auto.
Qed.

Lemma hoare_pure {A} (fact : Prop) (P : State -> Prop) (m : M A) Q R :
  (fact -> hoare P m Q R) -> hoare (fun s => P s /\ fact) m Q R.
Proof. intros H s [Hs Hfact]. exact (H Hfact s Hs). Qed.

Lemma _track_cases (operation : Operation) (r : Ref) (s : State) :
  match _track operation r s with
  | (Throw _, s') => s' = s
  | (Return _, s') =>
      (exists c m, s' = set_changes c m s) /\
      is_Some (deref (store s) r) /\ (tracker_ok s -> tracker_ok s')
  end.
Proof.
  assert (Hok : forall e, deref (store s) r = Some e -> tracker_ok s ->
                          tracker_ok (snd (_track operation r s))).
  { intros e He Hok. destruct (_track_exec operation r e s Hok He)
      as (c' & m' & Hrun & Hok' & _). now rewrite Hrun. }
  revert Hok. unfold _track, bind, read, get. simpl.
  destruct (deref (store s) r) as [e|]; simpl; [|reflexivity].
  destruct (_relativePathToChange s !! relativePath e) as [position|]; simpl.
  - destruct (_changes s !! position) as [[[op0 p0] r0]|]; simpl; [|reflexivity].
    intros Hok. split; [eauto|]. split; [eauto|]. apply (Hok e eq_refl).
  - intros Hok. split; [eauto|]. split; [eauto|]. apply (Hok e eq_refl).
Qed.

Lemma hoare_track (operation : Operation) (r : Ref) :
  hoare unchanged (_track operation r) (fun _ => tracked s0 r) failed.
Proof.
  intros s [Htree Hext]. pose proof (_track_cases operation r s) as H.
  destruct (_track operation r s) as [[[]|e] s'].
  - destruct H as ((c & m & ->) & Hr & Hok).
    destruct Htree as (He & Hc & Hm & _).
    split; [exact He|]. split; [exact Hext|]. split; [exact Hr|].
    intros Hok0. apply Hok. intros p i. rewrite Hc, Hm. apply Hok0.
  - subst s'. split; assumption.
Qed.

(** The scan of [_insertAt] over entry objects returns a sequence of entry
    objects, one longer or as long. *)
Lemma insert_scan_objects (h : list Entry) (r : Ref) (all : list Ref) :
  Forall (fun r' => is_Some (deref h r')) all -> is_Some (deref h r) ->
  forall (rest : list Ref) (position : nat),
    (position + length rest = length all)%nat ->
    Forall (fun r' => is_Some (deref h r')) rest ->
    exists l', insert_scan h r all position rest = Return l' /\
               Forall (fun r' => is_Some (deref h r')) l'.
Proof.
  intros Hall [e He] rest. induction rest as [|current rest IH];
    intros position Hlen Hrest; simpl.
  - eexists. split; [reflexivity|]. apply Forall_app. split; [assumption|].
    constructor; [eauto|constructor].
  - apply Forall_cons in Hrest as [[c Hc] Hrest]. rewrite Hc, He.
    simpl in Hlen.
    destruct (String.eqb (relativePath c) (relativePath e)).
    + eexists. split; [reflexivity|]. unfold array_set.
      destruct (Nat.ltb_spec position (length all)) as [_|]; [|lia].
      apply Forall_insert; eauto.
    + destruct (JsString.lt (relativePath c) (relativePath e)).
      * eexists. split; [reflexivity|]. unfold splice_in.
        apply Forall_app. split; [now apply Forall_take|].
        constructor; [eauto|now apply Forall_drop].
      * apply IH; [lia|assumption].
Qed.

Lemma hoare_insertAt (path : string) (result : Result) (r : Ref) :
  find_from (store s0) path 0 (entries s0) = Return result ->
  hoare (tracked s0 r) (_insertAt result r)
        (fun _ s => consistent s0 -> consistent s) (fun _ _ => False).
Proof.
  intros Hfind s (He & Hext & Hr & Hok).
  unfold _insertAt, bind, get, modify, lift. simpl.
  destruct (find_from_sound _ _ _ _ _ Hfind)
    as [(-> & Hall & _)|(k & e & Hi & Hk & _)].
  - simpl.
    assert (Hall' : Forall (fun r' => is_Some (deref (store s) r')) (entries s)).
    { rewrite He. eapply Forall_impl; [exact Hall|].
      intros r'. now apply store_extends_deref. }
    destruct (insert_scan_objects (store s) r (entries s) Hall' Hr (entries s) 0)
      as (l' & Hscan & Hl'); [reflexivity|assumption|].
    rewrite Hscan. simpl. intros [_ Hok0]. split; [exact Hl'|].
    intros p i. apply (Hok Hok0).
  - rewrite Hi. simpl.
    destruct (Z.ltb_spec (-1) (Z.of_nat k)) as [_|]; [|lia]. simpl.
    intros [Hobj Hok0]. split.
    + unfold objects_only. simpl. rewrite Nat2Z.id. unfold array_set.
      pose proof (lookup_lt_Some _ _ _ Hk) as Hlt. rewrite <- He in Hlt.
      destruct (Nat.ltb_spec k (length (entries s))) as [_|]; [|lia].
      apply Forall_insert; [|assumption]. rewrite He.
      eapply Forall_impl; [exact Hobj|]. intros r'. now apply store_extends_deref.
    + intros p i. apply (Hok Hok0).
Qed.

Ltac guarded_write_back :=
  apply hoare_bind with (Q := fun _ s => s = s0); [apply hoare_throwIfStopped|];
  intros _;
  eapply hoare_bind; [apply hoare_findByRelativePath|];
  intros result; apply hoare_pure; intros Hfind;
  apply hoare_bind with (Q := fun s1 s => s = s1 /\ s = s0); [apply hoare_get|];
  intros s1;
  apply hoare_bind with (Q := fun _ => unchanged);
  [eapply hoare_weaken; [apply hoare_fs_call| | |]; simpl; auto;
   intros s [_ ->]; split; [apply same_tree_refl|apply store_extends_refl]|];
  intros _;
  apply hoare_bind with (Q := fun _ => tracked s0 (entry result));
  [apply hoare_track|];
  intros _;
  eapply hoare_weaken; [exact (hoare_insertAt _ result (entry result) Hfind)| | |];
  simpl; auto; contradiction.

Lemma hoare_unlinkSync (path : string) :
  hoare (fun s => s = s0) (unlinkSync fs path)
        (fun _ s => consistent s0 -> consistent s) failed.
Proof. unfold unlinkSync. guarded_write_back. Qed.

Lemma hoare_rmdirSync (path : string) :
  hoare (fun s => s = s0) (rmdirSync fs path)
        (fun _ s => consistent s0 -> consistent s) failed.
Proof. unfold rmdirSync. guarded_write_back. Qed.

Lemma hoare_mkdirSync (path : string) :
  hoare (fun s => s = s0) (mkdirSync fs path)
        (fun _ s => consistent s0 -> consistent s) failed.
Proof. unfold mkdirSync. guarded_write_back. Qed.

Lemma hoare_writeFileSync (path content : string) :
  hoare (fun s => s = s0) (writeFileSync md5hex fs Date_now path content)
        (fun _ s => consistent s0 -> consistent s) failed.
Proof.
  unfold writeFileSync.
  apply hoare_bind with (Q := fun _ s => s = s0); [apply hoare_throwIfStopped|].
  intros _.
  eapply hoare_bind; [apply hoare_findByRelativePath|].
  intros result. apply hoare_pure. intros Hfind.
  apply hoare_bind with (Q := fun _ => unchanged).
  { eapply hoare_weaken; [apply hoare_checksum_unchanged| | |]; simpl; auto.
    intros s ->. split; [apply same_tree_refl|apply store_extends_refl]. }
  intros [|].
  { apply hoare_ret. intros s [Htree Hext]. now apply consistent_same_tree. }
  apply hoare_bind with (Q := fun s1 s => s = s1 /\ unchanged s); [apply hoare_get|].
  intros s1.
  apply hoare_bind with (Q := fun _ => unchanged).
  { eapply hoare_weaken; [apply hoare_fs_call| | |]; simpl; tauto. }
  intros _.
  apply hoare_bind with (Q := fun s2 s => s = s2 /\ unchanged s); [apply hoare_get|].
  intros s2.
  apply hoare_bind
    with (Q := fun r s => unchanged s /\ is_Some (deref (store s) r)).
  { eapply hoare_weaken; [apply hoare_alloc| | |]; simpl; tauto. }
  intros entry'.
  apply hoare_bind
    with (Q := fun _ s => unchanged s /\ is_Some (deref (store s) entry'));
    [apply hoare_truthy|].
  intros existed.
  apply hoare_bind with (Q := fun _ => tracked s0 entry').
  { eapply hoare_weaken; [apply hoare_track| | |]; simpl; tauto. }
  intros _.
  eapply hoare_weaken; [exact (hoare_insertAt _ result entry' Hfind)| | |];
    simpl; auto; contradiction.
Qed.

End MutationFacts.

(** X10. Each of the four mutating operations, whether it returns or throws,
    keeps the container consistent: the entries are entry objects (no [null]
    gets in) and the change log has one record per path, indexed by
    [_relativePathToChange]. *)
Theorem mutations_keep_the_container_consistent
    (md5hex : string -> string) (fs : list FsCall -> FsCall -> option string)
    (Date_now : list FsCall -> Z) (s s' : State) (path content : string) :
  consistent s ->
  In s' [snd (unlinkSync fs path s);
         snd (rmdirSync fs path s);
         snd (mkdirSync fs path s);
         snd (writeFileSync md5hex fs Date_now path content s)] ->
  consistent s' /\ NoDup (map cmd_path (_changes s')).
Proof.
  intros Hs Hin.
  assert (H : consistent s').
  { destruct Hin as [<-|[<-|[<-|[<-|[]]]]].
    - pose proof (hoare_unlinkSync fs s path s eq_refl) as H.
      destruct (unlinkSync fs path s) as [[[]|e] s']; simpl; [now apply H|].
      destruct H. now apply (consistent_same_tree s).
    - pose proof (hoare_rmdirSync fs s path s eq_refl) as H.
      destruct (rmdirSync fs path s) as [[[]|e] s']; simpl; [now apply H|].
      destruct H. now apply (consistent_same_tree s).
    - pose proof (hoare_mkdirSync fs s path s eq_refl) as H.
      destruct (mkdirSync fs path s) as [[[]|e] s']; simpl; [now apply H|].
      destruct H. now apply (consistent_same_tree s).
    - pose proof (hoare_writeFileSync md5hex fs Date_now s path content s eq_refl)
        as H.
      destruct (writeFileSync md5hex fs Date_now path content s) as [[[]|e] s'];
        simpl; [now apply H|].
      destruct H. now apply (consistent_same_tree s). }
  split; [exact H|]. destruct H as [_ H]. now apply tracker_ok_NoDup.
Qed.

(** X11. A mutating operation that throws has changed nothing of the
    container: entries, change log, path index, lifecycle state and root are
    as they were, and so is every entry object up to its checksum. *)
Theorem failed_mutation_changes_nothing
    (md5hex : string -> string) (fs : list FsCall -> FsCall -> option string)
    (Date_now : list FsCall -> Z) (s s' : State) (path content : string)
    (e : Exn) :
  unlinkSync fs path s = (Throw e, s') \/
  rmdirSync fs path s = (Throw e, s') \/
  mkdirSync fs path s = (Throw e, s') \/
  writeFileSync md5hex fs Date_now path content s = (Throw e, s') ->
  same_tree s s' /\ store_extends s s'.
Proof.
  intros [H|[H|[H|H]]].
  - pose proof (hoare_unlinkSync fs s path s eq_refl) as Hh.
    rewrite H in Hh. exact Hh.
  - pose proof (hoare_rmdirSync fs s path s eq_refl) as Hh.
    rewrite H in Hh. exact Hh.
  - pose proof (hoare_mkdirSync fs s path s eq_refl) as Hh.
    rewrite H in Hh. exact Hh.
  - pose proof (hoare_writeFileSync md5hex fs Date_now s path content s eq_refl)
      as Hh.
    rewrite H in Hh. exact Hh.
Qed.

Lemma consistent_one_file : consistent Sample.one_file.
Proof.
  split.
  - repeat constructor. exists (new_Entry "a.js" 0 0 None). reflexivity.
  - intros p i. simpl. rewrite lookup_empty. split; [discriminate|].
    intros (op & r & H). discriminate.
Qed.

Lemma mutations_keep_the_container_consistent_witness :
  let s' := snd (writeFileSync Sample.md5hex Sample.fs Sample.Date_now
                   "b.js" "x" Sample.one_file) in
  consistent s' /\ NoDup (map cmd_path (_changes s')).
Proof.
  apply (mutations_keep_the_container_consistent
           Sample.md5hex Sample.fs Sample.Date_now Sample.one_file _ "b.js" "x").
  - exact consistent_one_file.
  - simpl. auto.
Defined.

Lemma failed_mutation_changes_nothing_witness :
  same_tree Sample.one_file (set_calls [FsMkdirSync "root/c/"] Sample.one_file) /\
  store_extends Sample.one_file (set_calls [FsMkdirSync "root/c/"] Sample.one_file).
Proof.
  apply (failed_mutation_changes_nothing Sample.md5hex Sample.fs Sample.Date_now
           Sample.one_file _ "c/" "" (NullPropertyAccess "relativePath")).
  right; right; left. reflexivity.
Defined.

(** ** The container: writing a new path *)

Lemma find_from_skip (h : list Entry) (p : string) (pre l : list Ref) (i : nat) :
  Forall (fun r => exists e, deref h r = Some e /\ relativePath e <> p) pre ->
  find_from h p i (pre ++ l) = find_from h p (i + length pre) l.
Proof.
  revert i. induction pre as [|r pre IH]; intros i Hpre; simpl.
  - now rewrite Nat.add_0_r.
  - apply Forall_cons in Hpre as [(e & He & Hne) Hpre]. rewrite He.
    destruct (String.eqb_spec (relativePath e) p) as [Heq|_]; [contradiction|].
    rewrite IH by assumption. f_equal. lia.
Qed.

(** Where the scan of [_insertAt] puts an entry whose path no entry has:
    after the entries that are not below it, in front of the first entry that
    is below it, or at the end. *)
Lemma insert_scan_absent (h : list Entry) (r : Ref) (e : Entry)
    (rest before : list Ref) :
  deref h r = Some e ->
  Forall (fun c => exists ec, deref h c = Some ec /\
                              relativePath ec <> relativePath e) rest ->
  exists pre post,
    rest = pre ++ post /\
    insert_scan h r (before ++ rest) (length before) rest =
      Return (before ++ pre ++ r :: post) /\
    Forall (fun c => exists ec, deref h c = Some ec /\
                                JsString.lt (relativePath ec) (relativePath e) = false)
           pre /\
    (post = [] \/
     exists c ec post', post = c :: post' /\ deref h c = Some ec /\
                        JsString.lt (relativePath ec) (relativePath e) = true).
Proof.
  intros He. revert before. induction rest as [|c rest IH]; intros before Hrest.
  - exists [], []. simpl. rewrite app_nil_r. auto.
  - apply Forall_cons in Hrest as [(ec & Hc & Hne) Hrest]. simpl.
    rewrite Hc, He.
    destruct (String.eqb_spec (relativePath ec) (relativePath e)) as [Heq|_];
      [contradiction|].
    destruct (JsString.lt (relativePath ec) (relativePath e)) eqn:Hlt.
    + exists [], (c :: rest). simpl. split; [reflexivity|]. split.
      * unfold splice_in. now rewrite take_app_length, drop_app_length.
      * split; [constructor|]. right. exists c, ec, rest. auto.
    + destruct (IH (before ++ [c]) Hrest) as (pre & post & -> & Hscan & Hpre & Hpost).
      exists (c :: pre), post. split; [reflexivity|]. split; [|split].
      * rewrite length_app in Hscan. simpl in Hscan.
        replace (length before + 1)%nat with (S (length before)) in Hscan by lia.
        rewrite <- (app_assoc before [c]) in Hscan. simpl in Hscan.
        rewrite Hscan. now rewrite <- (app_assoc before [c]).
      * constructor; [eauto|assumption].
      * assumption.
Qed.

Lemma deref_app_l (h : list Entry) (e' : Entry) (r : Ref) (e : Entry) :
  deref h r = Some e -> deref (h ++ [e']) r = Some e.
Proof.
  destruct r as [|a]; [discriminate|]. simpl. intros H.
  rewrite lookup_app_l; [assumption|eapply lookup_lt_Some; eauto].
Qed.

Lemma absent_entries_differ (s : State) (path : string) :
  objects_only s -> path ∉ entry_paths s ->
  Forall (fun c => exists ec, deref (store s) c = Some ec /\
                              relativePath ec <> path) (entries s).
Proof.
  unfold objects_only, entry_paths. intros Hobj Hnot.
  induction (entries s) as [|c l IH]; [constructor|].
  apply Forall_cons in Hobj as [[ec Hc] Hobj]. simpl in Hnot. rewrite Hc in Hnot.
  simpl in Hnot. apply not_elem_of_cons in Hnot as [Hne Hnot].
  constructor; [eauto|auto].
Qed.

(** What [writeFileSync] does for a path that no entry has, when the write
    succeeds. *)
Lemma writeFileSync_new_exec
    (md5hex : string -> string) (fs : list FsCall -> FsCall -> option string)
    (Date_now : list FsCall -> Z) (s : State) (path content answer : string) :
  _state s = STARTED -> consistent s -> path ∉ entry_paths s ->
  fs (calls s) (FsWriteFileSync (root s ++ "/" ++ path) content) = Some answer ->
  let w := FsWriteFileSync (root s ++ "/" ++ path) content in
  let e' := new_Entry path (Z.of_nat (String.length content))
                      (Date_now (calls s ++ [w])) (Some (md5hex content)) in
  let r' := ref (length (store s)) in
  let h := store s ++ [e'] in
  exists changes' map' pre post,
    entries s = pre ++ post /\
    writeFileSync md5hex fs Date_now path content s =
      (Return tt,
       mkState h (pre ++ r' :: post) (root s) changes' map' (_state s)
               (calls s ++ [w])) /\
    (exists i, map' !! path = Some i /\ changes' !! i = Some (create, path, r')) /\
    Forall (fun c => exists ec, deref h c = Some ec /\ relativePath ec <> path /\
                                JsString.lt (relativePath ec) path = false) pre /\
    Forall (fun c => exists ec, deref h c = Some ec /\ relativePath ec <> path) post /\
    (post = [] \/
     exists c ec post', post = c :: post' /\ deref h c = Some ec /\
                        JsString.lt (relativePath ec) path = true).
Proof.
  intros Hstarted [Hobj Hok] Hnot Hfs w e' r' h.
  pose proof (absent_entries_differ s path Hobj Hnot) as Hdiff.
  assert (Hdiff' : Forall (fun c => exists ec, deref h c = Some ec /\
                                               relativePath ec <> relativePath e')
                          (entries s)).
  { eapply Forall_impl; [exact Hdiff|]. intros c (ec & Hc & Hne).
    exists ec. split; [now apply deref_app_l|exact Hne]. }
  assert (Hr' : deref h r' = Some e') by (apply list_lookup_middle; reflexivity).
  set (s2 := set_store h (set_calls (calls s ++ [w]) s)).
  assert (Hok2 : tracker_ok s2) by exact Hok.
  destruct (_track_exec create r' e' s2 Hok2 Hr')
    as (changes' & map' & Htrack & _ & Hrec & _).
  destruct (insert_scan_absent h r' e' (entries s) [] Hr' Hdiff')
    as (pre & post & Hsplit & Hscan & Hpre & Hpost).
  exists changes', map', pre, post. split; [exact Hsplit|]. split; [|split; [|split; [|split]]].
  - unfold writeFileSync, _throwIfStopped, findByRelativePath.
    unfold bind at 1 2 3. unfold get at 1. simpl. rewrite Hstarted. simpl.
    rewrite (find_from_absent (store s) path 0 (entries s) Hobj Hnot). simpl.
    unfold checksum_unchanged, truthy, ret. unfold bind at 1 2. simpl.
    unfold bind at 1. unfold get at 1. simpl.
    unfold bind at 1. unfold fs_call at 1. rewrite Hfs.
    unfold bind at 1. unfold get at 1. simpl.
    unfold bind at 1. unfold alloc at 1. simpl.
    unfold bind at 1. simpl.
    unfold bind at 1. change (_track create _ _) with (_track create r' s2).
    rewrite Htrack.
    unfold _insertAt, bind, get, modify, lift. simpl.
    change (insert_scan _ _ _ _ _) with (insert_scan h r' (entries s) 0 (entries s)).
    simpl in Hscan. rewrite Hscan. unfold s2, set_entries, set_changes, set_store, set_calls. simpl. now rewrite Hstarted.
  - exact Hrec.
  - rewrite Hsplit in Hdiff'. apply Forall_app in Hdiff' as [Hdiff' _].
    apply Forall_forall. intros c Hc.
    rewrite Forall_forall in Hpre, Hdiff'.
    destruct (Hpre c Hc) as (ec & Hec & Hlt).
    destruct (Hdiff' c Hc) as (ec' & Hec' & Hne).
    exists ec. rewrite Hec in Hec'. injection Hec' as <-. auto.
  - rewrite Hsplit in Hdiff'. now apply Forall_app in Hdiff' as [_ Hdiff'].
  - exact Hpost.
Qed.

(** X12. Writing, on a started and consistent container, a path that no
    entry has (the write call succeeding) returns with one entry more, every
    former entry kept; the new entry is a fresh object with the content's
    length and digest, [statSync] of the path now finds it, and the change
    log records a [create] for it. *)
Theorem writeFileSync_creates_an_entry
    (md5hex : string -> string) (fs : list FsCall -> FsCall -> option string)
    (Date_now : list FsCall -> Z) (s : State) (path content answer : string) :
  _state s = STARTED -> consistent s -> path ∉ entry_paths s ->
  fs (calls s) (FsWriteFileSync (root s ++ "/" ++ path) content) = Some answer ->
  let w := FsWriteFileSync (root s ++ "/" ++ path) content in
  let r' := ref (length (store s)) in
  exists s',
    writeFileSync md5hex fs Date_now path content s = (Return tt, s') /\
    length (entries s') = S (length (entries s)) /\
    (forall r, r ∈ entries s -> r ∈ entries s') /\
    statSync path s' = (Return r', s') /\
    deref (store s') r' =
      Some (new_Entry path (Z.of_nat (String.length content))
                      (Date_now (calls s ++ [w])) (Some (md5hex content))) /\
    (exists i, _relativePathToChange s' !! path = Some i /\
               _changes s' !! i = Some (create, path, r')) /\
    calls s' = calls s ++ [w].
Proof.
  intros Hstarted Hcons Hnot Hfs w r'.
  destruct (writeFileSync_new_exec md5hex fs Date_now s path content answer
              Hstarted Hcons Hnot Hfs)
    as (changes' & map' & pre & post & Hsplit & Hrun & Hrec & Hpre & Hpost & _).
  eexists. split; [exact Hrun|]. simpl. split; [|split; [|split; [|split]]].
  - rewrite Hsplit, !length_app. simpl. lia.
  - intros r. rewrite Hsplit, !elem_of_app, elem_of_cons. tauto.
  - unfold statSync, bind, findByRelativePath, ret. simpl.
    rewrite find_from_skip.
    + simpl. rewrite list_lookup_middle by reflexivity. simpl.
      now rewrite String.eqb_refl.
    + eapply Forall_impl; [exact Hpre|]. intros c (ec & Hc & Hne & _). eauto.
  - apply list_lookup_middle. reflexivity.
  - auto.
Qed.

Lemma omap_paths_cons (h : list Entry) (r : Ref) (e : Entry) (l : list Ref) :
  deref h r = Some e ->
  omap (fun r' => relativePath <$> deref h r') (r :: l) =
  relativePath e :: omap (fun r' => relativePath <$> deref h r') l.
Proof. intros H. simpl. now rewrite H. Qed.

(** X13. On a container that has entries, writing a path that no entry has
    never leaves the entries in ascending order: the scan of [_insertAt] puts
    the new entry after the entries that are not below it and in front of the
    first one that is below it, or at the end. *)
Theorem writeFileSync_of_new_path_unsorts
    (md5hex : string -> string) (fs : list FsCall -> FsCall -> option string)
    (Date_now : list FsCall -> Z) (s : State) (path content answer : string) :
  _state s = STARTED -> consistent s -> path ∉ entry_paths s ->
  fs (calls s) (FsWriteFileSync (root s ++ "/" ++ path) content) = Some answer ->
  entries s <> [] ->
  ascending (entry_paths (snd (writeFileSync md5hex fs Date_now path content s)))
  = false.
Proof.
  intros Hstarted Hcons Hnot Hfs Hne.
  destruct (writeFileSync_new_exec md5hex fs Date_now s path content answer
              Hstarted Hcons Hnot Hfs)
    as (changes' & map' & pre & post & Hsplit & Hrun & _ & Hpre & _ & Hpost).
  rewrite Hrun. unfold entry_paths. simpl.
  set (h := store s ++ _) in *.
  assert (Hnew : deref h (ref (length (store s))) =
                 Some (new_Entry path (Z.of_nat (String.length content))
                         (Date_now (calls s ++
                            [FsWriteFileSync (root s ++ "/" ++ path) content]))
                         (Some (md5hex content))))
    by (apply list_lookup_middle; reflexivity).
  destruct (ascending _) eqn:Hasc; [exfalso|reflexivity].
  destruct pre as [|c0 pre].
  - destruct Hpost as [->|(c & ec & post' & -> & Hc & Hlt)].
    + now contradiction Hne.
    + rewrite app_nil_l, (omap_paths_cons _ _ _ _ Hnew),
        (omap_paths_cons _ _ _ _ Hc) in Hasc.
      change (relativePath (new_Entry path _ _ _)) with path in Hasc.
      simpl in Hasc. apply andb_true_iff in Hasc as [Hgt _].
      exact (JsStringFacts.lt_asym _ _ Hlt Hgt).
  - apply Forall_cons in Hpre as [(ec & Hc & _ & Hlt) _].
    rewrite <- app_comm_cons, (omap_paths_cons _ _ _ _ Hc) in Hasc.
    apply ascending_cons in Hasc as [_ Hall].
    rewrite (Hall path) in Hlt; [discriminate|].
    apply list_elem_of_omap. exists (ref (length (store s))).
    split; [apply elem_of_app; right; apply elem_of_cons; now left|].
    now rewrite Hnew.
Qed.

Lemma writeFileSync_creates_an_entry_witness :
  exists s',
    writeFileSync Sample.md5hex Sample.fs Sample.Date_now "b.js" "x"
                  Sample.one_file = (Return tt, s') /\
    length (entries s') = 2%nat /\
    (forall r, r ∈ entries Sample.one_file -> r ∈ entries s') /\
    statSync "b.js" s' = (Return (ref 1), s') /\
    deref (store s') (ref 1) =
      Some (new_Entry "b.js" 1 1 (Some (Sample.md5hex "x"))) /\
    (exists i, _relativePathToChange s' !! "b.js" = Some i /\
               _changes s' !! i = Some (create, "b.js", ref 1)) /\
    calls s' = [FsWriteFileSync "root/b.js" "x"].
Proof.
  apply (writeFileSync_creates_an_entry Sample.md5hex Sample.fs Sample.Date_now
           Sample.one_file "b.js" "x" "").
  - reflexivity.
  - exact consistent_one_file.
  - simpl. intros H. apply elem_of_cons in H as [H|H]; [discriminate|inversion H].
  - reflexivity.
Defined.

Lemma writeFileSync_of_new_path_unsorts_witness :
  ascending (entry_paths (snd (writeFileSync Sample.md5hex Sample.fs
                                 Sample.Date_now "b.js" "x" Sample.one_file)))
  = false.
Proof.
  apply (writeFileSync_of_new_path_unsorts Sample.md5hex Sample.fs Sample.Date_now
           Sample.one_file "b.js" "x" "").
  - reflexivity.
  - exact consistent_one_file.
  - simpl. intros H. apply elem_of_cons in H as [H|H]; [discriminate|inversion H].
  - reflexivity.
  - discriminate.
Defined.

(** ** The container: operations on a path that is there *)

Lemma tracked_write_back_exec
    (fs : list FsCall -> FsCall -> option string)
    (call : FsCall) (operation : Operation) (answer : string)
    (r : Ref) (e : Entry) (k : nat) (s : State) :
  tracker_ok s -> fs (calls s) call = Some answer ->
  entries s !! k = Some r -> deref (store s) r = Some e ->
  exists changes' map',
    (run fs_call fs call;
     run _track operation r;
     _insertAt {| entry := r; index := Z.of_nat k |} r) s =
    (Return tt, set_changes changes' map' (set_calls (calls s ++ [call]) s)) /\
    (exists i, map' !! relativePath e = Some i /\
               changes' !! i = Some (operation, relativePath e, r)).
Proof.
  intros Hok Hfs Hk He.
  set (s1 := set_calls (calls s ++ [call]) s).
  assert (Hok1 : tracker_ok s1) by exact Hok.
  destruct (_track_exec operation r e s1 Hok1 He)
    as (changes' & map' & Htrack & _ & Hrec & _).
  exists changes', map'. split; [|exact Hrec].
  unfold bind at 1. unfold fs_call. rewrite Hfs. fold s1.
  unfold bind at 1. rewrite Htrack.
  now rewrite _insertAt_same.
Qed.

(** X14. On a started and consistent container, [unlinkSync], [rmdirSync]
    and [mkdirSync] of a path that an entry has (the file-system call
    succeeding) return, leave the entries as they are, and leave in the
    change log one record for the path, with the operation and the entry that
    was found. *)
Theorem tracked_operation_is_recorded
    (fs : list FsCall -> FsCall -> option string) (s : State)
    (path answer : string)
    (operation : string -> M unit) (call : string -> FsCall) (kind : Operation) :
  In (operation, call, kind)
     [(unlinkSync fs, FsUnlinkSync, unlink);
      (rmdirSync fs, FsRmdirSync, rmdir);
      (mkdirSync fs, FsMkdirSync, mkdir)] ->
  _state s = STARTED -> consistent s -> path ∈ entry_paths s ->
  fs (calls s) (call (root s ++ "/" ++ path)%string) = Some answer ->
  exists s' r i,
    operation path s = (Return tt, s') /\
    entries s' = entries s /\ store s' = store s /\
    calls s' = calls s ++ [call (root s ++ "/" ++ path)%string] /\
    statSync path s = (Return r, s) /\
    _relativePathToChange s' !! path = Some i /\
    _changes s' !! i = Some (kind, path, r).
Proof.
  intros Hin Hstarted [Hobj Hok] Hpath Hfs.
  destruct (find_from_present (store s) path 0 (entries s) Hobj Hpath)
    as (r & k & e & Hfind & Hk & He & Hp).
  destruct (tracked_write_back_exec fs (call (root s ++ "/" ++ path)%string) kind answer
              r e k s Hok Hfs Hk He)
    as (changes' & map' & Hrun & i & Hi & Hrec).
  rewrite Hp in Hi, Hrec.
  exists (set_changes changes' map'
            (set_calls (calls s ++ [call (root s ++ "/" ++ path)%string]) s)), r, i.
  assert (Hstat : statSync path s = (Return r, s)).
  { unfold statSync, bind, findByRelativePath, ret. now rewrite Hfind. }
  repeat split; try assumption.
  rewrite <- Hrun.
  destruct Hin as [[= <- <- <-]|[[= <- <- <-]|[[= <- <- <-]|[]]]].
  - unfold unlinkSync, _throwIfStopped, findByRelativePath.
    unfold bind at 1 2 3 4. unfold get at 1 2. simpl.
    rewrite Hstarted. simpl. rewrite Hfind. reflexivity.
  - unfold rmdirSync, _throwIfStopped, findByRelativePath.
    unfold bind at 1 2 3 4. unfold get at 1 2. simpl.
    rewrite Hstarted. simpl. rewrite Hfind. reflexivity.
  - unfold mkdirSync, _throwIfStopped, findByRelativePath.
    unfold bind at 1 2 3 4. unfold get at 1 2. simpl.
    rewrite Hstarted. simpl. rewrite Hfind. reflexivity.
Qed.

Lemma tracked_operation_is_recorded_witness :
  exists s' r i,
    unlinkSync Sample.fs "a.js" Sample.one_file = (Return tt, s') /\
    entries s' = [ref 0] /\ store s' = store Sample.one_file /\
    calls s' = [FsUnlinkSync "root/a.js"] /\
    statSync "a.js" Sample.one_file = (Return r, Sample.one_file) /\
    _relativePathToChange s' !! "a.js" = Some i /\
    _changes s' !! i = Some (unlink, "a.js", r).
Proof.
  apply (tracked_operation_is_recorded Sample.fs Sample.one_file "a.js" ""
           (unlinkSync Sample.fs) FsUnlinkSync unlink).
  - simpl. auto.
  - reflexivity.
  - exact consistent_one_file.
  - simpl. apply elem_of_cons. now left.
  - reflexivity.
Defined.

Lemma find_from_returns (s : State) (path : string) :
  objects_only s ->
  exists result, find_from (store s) path 0 (entries s) = Return result.
Proof.
  intros Hobj. destruct (decide (path ∈ entry_paths s)) as [Hin|Hnot].
  - destruct (find_from_present (store s) path 0 (entries s) Hobj Hin)
      as (r & k & e & Hfind & _). eauto.
  - rewrite (find_from_absent (store s) path 0 (entries s) Hobj Hnot). eauto.
Qed.

(** X15. [readFileSync] has no lifecycle guard and does not use what it looks
    up: on a container whose entries are entry objects, stopped or not,
    whether the path is an entry or not, it issues the read and returns its
    answer, or throws what the read throws; only the record of calls
    changes. *)
Theorem readFileSync_only_reads
    (fs : list FsCall -> FsCall -> option string) (s : State) (path : string) :
  objects_only s ->
  readFileSync fs path s =
  (match fs (calls s) (FsReadFileSync (root s ++ "/" ++ path)) with
   | Some content => Return content
   | None => Throw (FsError (FsReadFileSync (root s ++ "/" ++ path)))
   end,
   set_calls (calls s ++ [FsReadFileSync (root s ++ "/" ++ path)]) s).
Proof.
  intros Hobj. destruct (find_from_returns s path Hobj) as (result & Hfind).
  unfold readFileSync. unfold bind at 1. unfold findByRelativePath. rewrite Hfind.
  unfold bind, get, fs_call. simpl.
  now destruct (fs (calls s) (FsReadFileSync (root s ++ "/" ++ path))).
Qed.

Lemma readFileSync_only_reads_witness :
  readFileSync Sample.fs "missing.js" Sample.stopped =
  (Return "", set_calls [FsReadFileSync "root/missing.js"] Sample.stopped).
Proof.
  apply (readFileSync_only_reads Sample.fs Sample.stopped "missing.js").
  repeat constructor. exists (new_Entry "a.js" 0 0 None). reflexivity.
Defined.

Lemma checksum_unchanged_differs
    (md5hex : string -> string) (fs : list FsCall -> FsCall -> option string)
    (path : string) (r : Ref) (e : Entry) (digest : string) (s : State) :
  deref (store s) r = Some e -> falsy (checksum e) = false ->
  checksum e <> Some digest ->
  checksum_unchanged md5hex fs path r digest s = (Return false, s).
Proof.
  intros He Hfalsy Hsum.
  unfold checksum_unchanged, bind, truthy, read, ret.
  rewrite He. cbn iota. rewrite He. cbn iota. rewrite Hfalsy. cbn iota beta.
  rewrite He.
  destruct (checksum e) as [c|]; [|discriminate].
  destruct (String.eqb_spec c digest) as [->|_]; [now contradiction Hsum|].
  reflexivity.
Qed.

(** X16. Writing, on a started and consistent container, content to the path
    of an entry that has a checksum other than the content's digest (the
    write call succeeding) replaces that entry, at its index, by a fresh
    entry object; the entries are as many as before, [statSync] of the path
    finds the new entry, and the change log records a [change] for it. *)
Theorem writeFileSync_replaces_the_entry
    (md5hex : string -> string) (fs : list FsCall -> FsCall -> option string)
    (Date_now : list FsCall -> Z) (s : State) (path content answer : string)
    (r : Ref) (e : Entry) :
  _state s = STARTED -> consistent s ->
  statSync path s = (Return r, s) -> deref (store s) r = Some e ->
  falsy (checksum e) = false -> checksum e <> Some (md5hex content) ->
  fs (calls s) (FsWriteFileSync (root s ++ "/" ++ path) content) = Some answer ->
  let w := FsWriteFileSync (root s ++ "/" ++ path) content in
  let r' := ref (length (store s)) in
  exists s' (k : nat),
    writeFileSync md5hex fs Date_now path content s = (Return tt, s') /\
    entries s !! k = Some r /\
    entries s' = <[k := r']> (entries s) /\
    store s' = store s ++
      [new_Entry path (Z.of_nat (String.length content))
                 (Date_now (calls s ++ [w])) (Some (md5hex content))] /\
    statSync path s' = (Return r', s') /\
    (exists i, _relativePathToChange s' !! path = Some i /\
               _changes s' !! i = Some (change, path, r')) /\
    calls s' = calls s ++ [w].
Proof.
  intros Hstarted [Hobj Hok] Hstat He Hfalsy Hsum Hfs w r'.
  set (e' := new_Entry path (Z.of_nat (String.length content))
                       (Date_now (calls s ++ [w])) (Some (md5hex content))).
  set (h := store s ++ [e']).
  destruct (find_from (store s) path 0 (entries s)) as [result|x] eqn:Hfind.
  2:{ unfold statSync, bind, findByRelativePath in Hstat. rewrite Hfind in Hstat.
      discriminate. }
  assert (entry result = r) as Hentry.
  { unfold statSync, bind, findByRelativePath, ret in Hstat.
    rewrite Hfind in Hstat. now injection Hstat. }
  destruct (find_from_sound _ _ _ _ _ Hfind)
    as [(-> & _)|(k & e0 & Hi & Hk & He0 & Hp & Hfirst)].
  { simpl in Hentry. subst r. discriminate. }
  rewrite Hentry in Hk, He0. rewrite He in He0. injection He0 as <-.
  simpl in Hi.
  assert (Hr' : deref h r' = Some e') by (apply list_lookup_middle; reflexivity).
  set (s2 := set_store h (set_calls (calls s ++ [w]) s)).
  assert (Hok2 : tracker_ok s2) by exact Hok.
  destruct (_track_exec change r' e' s2 Hok2 Hr')
    as (changes' & map' & Htrack & _ & Hrec & _).
  pose proof (lookup_lt_Some _ _ _ Hk) as Hlt.
  assert (Hrun : writeFileSync md5hex fs Date_now path content s =
                 (Return tt, set_entries (<[k := r']> (entries s))
                               (set_changes changes' map' s2))).
  { unfold writeFileSync, _throwIfStopped, findByRelativePath.
    unfold bind at 1 2 3. unfold get at 1. simpl. rewrite Hstarted. simpl.
    rewrite Hfind. simpl. rewrite Hentry.
    unfold bind at 1.
    change (checksum_unchanged md5hex fs path r _ s)
      with (checksum_unchanged md5hex fs path r (md5hex content) s).
    rewrite (checksum_unchanged_differs md5hex fs path r e _ s He Hfalsy Hsum).
    unfold bind at 1. unfold get at 1. simpl.
    unfold bind at 1. unfold fs_call at 1. rewrite Hfs.
    unfold bind at 1. unfold get at 1. simpl.
    unfold bind at 1. unfold alloc at 1. simpl.
    unfold bind at 1. unfold truthy at 1. simpl.
    rewrite (deref_app_l (store s) _ r e He).
    unfold bind at 1. change (_track change _ _) with (_track change r' s2).
    rewrite Htrack.
    unfold _insertAt, bind, get, modify. simpl. rewrite Hi.
    destruct (Z.ltb_spec (-1) (Z.of_nat k)) as [_|]; [|lia].
    rewrite Nat2Z.id. unfold array_set.
    destruct (Nat.ltb_spec k (length (entries s))) as [_|]; [|lia].
    reflexivity. }
  exists (set_entries (<[k := r']> (entries s)) (set_changes changes' map' s2)), k.
  split; [exact Hrun|]. split; [exact Hk|]. simpl.
  repeat split; try reflexivity; try assumption.
  unfold statSync, bind, findByRelativePath, ret. simpl.
  rewrite insert_take_drop by assumption. rewrite find_from_skip.
  - cbn [find_from]. rewrite Hr'.
    change (relativePath e') with path. now rewrite String.eqb_refl.
  - apply Forall_lookup. intros j x Hj.
    apply lookup_take_Some in Hj as [Hj Hjk].
    assert (Hx : is_Some (deref (store s) x)).
    { unfold objects_only in Hobj. rewrite Forall_lookup in Hobj. eauto. }
    destruct Hx as [ex Hex]. exists ex. split; [now apply deref_app_l|].
    eapply Hfirst; eauto.
Qed.

Lemma consistent_hashed_file : consistent MoreSamples.hashed_file.
Proof.
  split.
  - repeat constructor. exists (new_Entry "a.js" 3 0 (Some "0cc175b9")). reflexivity.
  - intros p i. simpl. rewrite lookup_empty. split; [discriminate|].
    intros (op & r & H). discriminate.
Qed.

Lemma writeFileSync_replaces_the_entry_witness :
  exists s' (k : nat),
    writeFileSync Sample.md5hex Sample.fs Sample.Date_now "a.js" "x"
                  MoreSamples.hashed_file = (Return tt, s') /\
    entries MoreSamples.hashed_file !! k = Some (ref 0) /\
    entries s' = <[k := ref 1]> [ref 0] /\
    store s' = store MoreSamples.hashed_file ++
               [new_Entry "a.js" 1 1 (Some (Sample.md5hex "x"))] /\
    statSync "a.js" s' = (Return (ref 1), s') /\
    (exists i, _relativePathToChange s' !! "a.js" = Some i /\
               _changes s' !! i = Some (change, "a.js", ref 1)) /\
    calls s' = [FsWriteFileSync "root/a.js" "x"].
Proof.
  apply (writeFileSync_replaces_the_entry Sample.md5hex Sample.fs Sample.Date_now
           MoreSamples.hashed_file "a.js" "x" "" (ref 0)
           (new_Entry "a.js" 3 0 (Some "0cc175b9"))).
  - reflexivity.
  - exact consistent_hashed_file.
  - reflexivity.
  - reflexivity.
  - reflexivity.
  - discriminate.
  - reflexivity.
Defined.

(** ** The container: what goes wrong *)

(** X17. On a started container, [unlinkSync] and [rmdirSync] of a path that
    no entry has issue the file-system call all the same and then, that call
    returning, throw the type error of reading [relativePath] of [null];
    nothing but the record of calls has changed. *)
Theorem removal_of_absent_path_throws
    (fs : list FsCall -> FsCall -> option string) (s : State)
    (path answer : string)
    (operation : string -> M unit) (call : string -> FsCall) :
  In (operation, call)
     [(unlinkSync fs, FsUnlinkSync); (rmdirSync fs, FsRmdirSync)] ->
  _state s = STARTED -> objects_only s -> path ∉ entry_paths s ->
  fs (calls s) (call (root s ++ "/" ++ path)%string) = Some answer ->
  operation path s =
  (Throw (NullPropertyAccess "relativePath"),
   set_calls (calls s ++ [call (root s ++ "/" ++ path)%string]) s).
Proof.
  intros Hin Hstarted Hobj Hnot Hfs.
  destruct Hin as [[= <- <-]|[[= <- <-]|[]]].
  - unfold unlinkSync, _throwIfStopped, findByRelativePath.
    unfold bind at 1 2 3 4. unfold get at 1 2. simpl. rewrite Hstarted. simpl.
    rewrite (find_from_absent (store s) path 0 (entries s) Hobj Hnot). simpl.
    unfold bind, fs_call. rewrite Hfs. reflexivity.
  - unfold rmdirSync, _throwIfStopped, findByRelativePath.
    unfold bind at 1 2 3 4. unfold get at 1 2. simpl. rewrite Hstarted. simpl.
    rewrite (find_from_absent (store s) path 0 (entries s) Hobj Hnot). simpl.
    unfold bind, fs_call. rewrite Hfs. reflexivity.
Qed.

Lemma removal_of_absent_path_throws_witness :
  unlinkSync Sample.fs "gone.js" Sample.one_file =
  (Throw (NullPropertyAccess "relativePath"),
   set_calls [FsUnlinkSync "root/gone.js"] Sample.one_file).
Proof.
  apply (removal_of_absent_path_throws Sample.fs Sample.one_file "gone.js" ""
           (unlinkSync Sample.fs) FsUnlinkSync).
  - simpl. auto.
  - reflexivity.
  - repeat constructor. exists (new_Entry "a.js" 0 0 None). reflexivity.
  - simpl. intros H. apply elem_of_cons in H as [H|H]; [discriminate|inversion H].
  - reflexivity.
Defined.

(** X18. On a started container whose entries are entry objects, when the
    file-system call of [unlinkSync], [rmdirSync] or [mkdirSync] throws, the
    operation throws that very error, whatever the path: nothing is tracked
    and nothing but the record of calls has changed. *)
Theorem file_system_failure_propagates
    (fs : list FsCall -> FsCall -> option string) (s : State) (path : string)
    (operation : string -> M unit) (call : string -> FsCall) :
  In (operation, call)
     [(unlinkSync fs, FsUnlinkSync); (rmdirSync fs, FsRmdirSync);
      (mkdirSync fs, FsMkdirSync)] ->
  _state s = STARTED -> objects_only s ->
  fs (calls s) (call (root s ++ "/" ++ path)%string) = None ->
  operation path s =
  (Throw (FsError (call (root s ++ "/" ++ path)%string)),
   set_calls (calls s ++ [call (root s ++ "/" ++ path)%string]) s).
Proof.
  intros Hin Hstarted Hobj Hfs.
  destruct (find_from_returns s path Hobj) as (result & Hfind).
  destruct Hin as [[= <- <-]|[[= <- <-]|[[= <- <-]|[]]]].
  - unfold unlinkSync, _throwIfStopped, findByRelativePath.
    unfold bind at 1 2 3 4. unfold get at 1 2. simpl. rewrite Hstarted. simpl.
    rewrite Hfind. simpl. unfold bind, fs_call. rewrite Hfs. reflexivity.
  - unfold rmdirSync, _throwIfStopped, findByRelativePath.
    unfold bind at 1 2 3 4. unfold get at 1 2. simpl. rewrite Hstarted. simpl.
    rewrite Hfind. simpl. unfold bind, fs_call. rewrite Hfs. reflexivity.
  - unfold mkdirSync, _throwIfStopped, findByRelativePath.
    unfold bind at 1 2 3 4. unfold get at 1 2. simpl. rewrite Hstarted. simpl.
    rewrite Hfind. simpl. unfold bind, fs_call. rewrite Hfs. reflexivity.
Qed.

Lemma file_system_failure_propagates_witness :
  rmdirSync MoreSamples.failing_fs "a.js" Sample.one_file =
  (Throw (FsError (FsRmdirSync "root/a.js")),
   set_calls [FsRmdirSync "root/a.js"] Sample.one_file).
Proof.
  apply (file_system_failure_propagates MoreSamples.failing_fs Sample.one_file
           "a.js" (rmdirSync MoreSamples.failing_fs) FsRmdirSync).
  - simpl. auto.
  - reflexivity.
  - repeat constructor. exists (new_Entry "a.js" 0 0 None). reflexivity.
  - reflexivity.
Defined.

Lemma _track_keeps_one_record_per_path_witness :
  exists s',
    _track unlink (ref 0) Sample.one_file = (Return tt, s') /\
    tracker_ok s' /\ NoDup (map cmd_path (_changes s')) /\
    (exists i, _relativePathToChange s' !! "a.js" = Some i /\
               _changes s' !! i = Some (unlink, "a.js", ref 0)) /\
    length (_changes s') = 1%nat /\
    (forall (j : nat) c, _changes Sample.one_file !! j = Some c ->
                         cmd_path c <> "a.js" -> _changes s' !! j = Some c).
Proof.
  apply (_track_keeps_one_record_per_path unlink (ref 0)
           (new_Entry "a.js" 0 0 None) Sample.one_file).
  - apply consistent_one_file.
  - reflexivity.
Defined.

(** * Entries whose size and mtime need not be numbers *)

Lemma untyped_while_loop_cons isEqual x ours' y theirs' operations removals :
  Untyped.while_loop isEqual (x :: ours') (y :: theirs') operations removals =
  if JsString.lt (Untyped.relativePath x) (Untyped.relativePath y) then
    if Untyped.isDirectory x then
      Untyped.while_loop isEqual ours' (y :: theirs') operations
                         (removals ++ [Untyped.removeCommand x])
    else
      Untyped.while_loop isEqual ours' (y :: theirs')
                         (operations ++ [Untyped.removeCommand x]) removals
  else if JsString.gt (Untyped.relativePath x) (Untyped.relativePath y) then
    Untyped.while_loop isEqual (x :: ours') theirs'
                       (operations ++ [Untyped.addCommand y]) removals
  else if negb (isEqual x y) then
    if Untyped.isDirectory x then
      Untyped.while_loop isEqual ours' theirs' operations
                         (removals ++ [Untyped.updateCommand y])
    else
      Untyped.while_loop isEqual ours' theirs'
                         (operations ++ [Untyped.updateCommand y]) removals
  else Untyped.while_loop isEqual ours' theirs' operations removals.
Proof. reflexivity. Qed.

Lemma untyped_strict_eq_self (v : Untyped.Scalar) :
  Untyped.strict_eq v v = true <-> v <> Untyped.Number Untyped.NaN.
Proof.
  destruct v as [|[n|]]; simpl.
  - split; [discriminate|reflexivity].
  - rewrite Z.eqb_refl. split; [discriminate|reflexivity].
  - split; [discriminate|]. intros H. now contradiction H.
Qed.

Lemma untyped_number_eq_self (n : Untyped.JsNumber) :
  Untyped.number_eq n n = true <-> n <> Untyped.NaN.
Proof.
  destruct n as [n|]; simpl.
  - rewrite Z.eqb_refl. split; [discriminate|reflexivity].
  - split; [discriminate|]. intros H. now contradiction H.
Qed.

(** When [defaultIsEqual] finds an entry equal to itself. *)
Lemma untyped_defaultIsEqual_self (x : Untyped.Entry) :
  Untyped.defaultIsEqual x x = true <-> Untyped.self_equal x.
Proof.
  unfold Untyped.defaultIsEqual, Untyped.self_equal.
  destruct (Untyped.isDirectory x); simpl.
  - split; auto.
  - rewrite !andb_true_iff, Z.eqb_eq, untyped_strict_eq_self,
      untyped_number_eq_self.
    split; [intros [[H1 H2] _]; auto|intros [H|[H1 H2]]; [discriminate|auto]].
Qed.

(** The merge of a sequence with itself consumes both and emits a [change]
    for exactly the entries that [defaultIsEqual] tells apart from
    themselves. *)
Lemma untyped_while_loop_same (A : list Untyped.Entry) operations removals :
  exists operations' removals',
    Untyped.while_loop Untyped.defaultIsEqual A A operations removals =
      ([], [], operations', removals') /\
    forall c, c ∈ operations' ++ removals' <->
              c ∈ operations ++ removals \/
              exists e, e ∈ A /\ Untyped.defaultIsEqual e e = false /\
                        c = Untyped.updateCommand e.
Proof.
  revert operations removals. induction A as [|x A IH]; intros ops rem.
  - exists ops, rem. split; [reflexivity|]. intros c. split; [auto|].
    intros [H|(e & He & _)]; [assumption|inversion He].
  - rewrite untyped_while_loop_cons.
    rewrite JsStringFacts.lt_irrefl, JsStringFacts.gt_irrefl.
    destruct (Untyped.defaultIsEqual x x) eqn:Hx; simpl.
    + destruct (IH ops rem) as (ops' & rem' & Hrun & Hin).
      exists ops', rem'. split; [exact Hrun|]. intros c. rewrite Hin. split.
      * intros [H|(e & He & Hne & ->)]; [auto|]. right. exists e.
        rewrite elem_of_cons. auto.
      * intros [H|(e & He & Hne & ->)]; [auto|].
        apply elem_of_cons in He as [->|He]; [congruence|]. right. eauto.
    + destruct (Untyped.isDirectory x).
      * destruct (IH ops (rem ++ [Untyped.updateCommand x]))
          as (ops' & rem' & Hrun & Hin).
        exists ops', rem'. split; [exact Hrun|]. intros c. rewrite Hin.
        rewrite !elem_of_app, list_elem_of_singleton. split.
        -- intros [[H|[H| ->]]|(e & He & Hne & ->)]; auto.
           ++ right. exists x. rewrite elem_of_cons. auto.
           ++ right. exists e. rewrite elem_of_cons. auto.
        -- intros [[H|H]|(e & He & Hne & ->)]; auto.
           apply elem_of_cons in He as [->|He]; [auto|]. right. eauto.
      * destruct (IH (ops ++ [Untyped.updateCommand x]) rem)
          as (ops' & rem' & Hrun & Hin).
        exists ops', rem'. split; [exact Hrun|]. intros c. rewrite Hin.
        rewrite !elem_of_app, list_elem_of_singleton. split.
        -- intros [[[H| ->]|H]|(e & He & Hne & ->)]; auto.
           ++ right. exists x. rewrite elem_of_cons. auto.
           ++ right. exists e. rewrite elem_of_cons. auto.
        -- intros [[H|H]|(e & He & Hne & ->)]; auto.
           apply elem_of_cons in He as [->|He]; [auto|]. right. eauto.
Qed.

(** C7, as the code has it. Diffing an entry sequence against itself with the
    default equality predicate yields the empty operation list exactly when
    every entry of the sequence is a directory or has a size other than [NaN]
    and an mtime that does not coerce to [NaN] (for every sequence, sorted and
    duplicate-free or not). *)
Theorem calculatePatch_same_is_empty_iff (A : list Untyped.Entry) :
  Untyped.calculatePatch A A None = Return [] <->
  forall e, e ∈ A -> Untyped.self_equal e.
Proof.
  unfold Untyped.calculatePatch, Untyped.patch. simpl.
  destruct (untyped_while_loop_same A [] []) as (ops & rem & Hrun & Hin).
  rewrite Hrun. simpl. split.
  - intros Hempty e He. apply untyped_defaultIsEqual_self.
    destruct (Untyped.defaultIsEqual e e) eqn:Hne; [reflexivity|exfalso].
    assert (Hc : Untyped.updateCommand e ∈ ops ++ rem)
      by (apply Hin; right; eauto).
    injection Hempty as Hempty.
    apply app_eq_nil in Hempty as [-> Hrem].
    assert (rem = []) as ->.
    { destruct rem as [|c rem]; [reflexivity|]. simpl in Hrem.
      now apply app_eq_nil in Hrem as [_ Hrem]. }
    inversion Hc.
  - intros Hall. f_equal.
    assert (Hnone : forall c, c ∉ ops ++ rem).
    { intros c Hc. apply Hin in Hc as [Hc|(e & He & Hne & _)]; [inversion Hc|].
      apply Hall, untyped_defaultIsEqual_self in He. congruence. }
    destruct ops as [|c ops]; [|exfalso; apply (Hnone c); now left].
    destruct rem as [|c rem]; [reflexivity|exfalso; apply (Hnone c); now left].
Qed.

(** C7 on a sequence of a directory without mtime and a file with size and
    mtime. *)
Lemma calculatePatch_same_is_empty_iff_witness :
  Untyped.calculatePatch
    [Untyped.new_Entry "a/" Untyped.Undefined Untyped.Undefined None;
     Untyped.new_Entry "a/b.js" (Untyped.Number (Untyped.Finite 3))
                       (Untyped.Number (Untyped.Finite 7)) None]
    [Untyped.new_Entry "a/" Untyped.Undefined Untyped.Undefined None;
     Untyped.new_Entry "a/b.js" (Untyped.Number (Untyped.Finite 3))
                       (Untyped.Number (Untyped.Finite 7)) None]
    None = Return [].
Proof.
  apply calculatePatch_same_is_empty_iff. intros e He.
  apply elem_of_cons in He as [->|He]; [left; reflexivity|].
  apply elem_of_cons in He as [->|He]; [|inversion He].
  right. split; discriminate.
Defined.

(** C7, as stated, fails: the sorted, duplicate-free sequence whose only
    entry is [new Entry('a.js', 0)], which has no mtime, diffed against
    itself gives a [change] of [a.js]. *)
Lemma entry_without_mtime_differs_from_itself :
  let e := Untyped.new_Entry "a.js" (Untyped.Number (Untyped.Finite 0))
                             Untyped.Undefined None in
  Untyped.sortedUnique [e] /\
  Untyped.calculatePatch [e] [e] None = Return [(change, "a.js", e)] /\
  Untyped.calculatePatch [e] [e] None <> Return [].
Proof. split; [reflexivity|]. split; [reflexivity|discriminate]. Qed.

(** ** The two models agree on entries with integer size and mtime *)

Lemma untyped_defaultIsEqual (a b : Entry) :
  Untyped.defaultIsEqual (untyped a) (untyped b) = defaultIsEqual a b.
Proof. reflexivity. Qed.

Lemma untyped_while_loop (f : Entry -> Entry -> bool)
    (f' : Untyped.Entry -> Untyped.Entry -> bool) ours theirs operations removals :
  (forall x y, f' (untyped x) (untyped y) = f x y) ->
  Untyped.while_loop f' (map untyped ours) (map untyped theirs)
                     (map untyped_command operations)
                     (map untyped_command removals) =
  untyped_state (while_loop f ours theirs operations removals).
Proof.
  intros Hf.
  pattern ours, theirs, operations, removals,
    (while_loop f ours theirs operations removals).
  apply while_loop_ind; clear ours theirs operations removals;
    try (intros x ours' y theirs' ops rem r).
  - intros theirs ops rem. reflexivity.
  - intros ours ops rem. simpl. now destruct ours.
  - intros Hlt Hd IH. simpl map. rewrite untyped_while_loop_cons.
    change (Untyped.relativePath (untyped x)) with (relativePath x).
    change (Untyped.relativePath (untyped y)) with (relativePath y).
    change (Untyped.isDirectory (untyped x)) with (isDirectory x).
    rewrite Hlt, Hd. rewrite map_app in IH. exact IH.
  - intros Hlt Hd IH. simpl map. rewrite untyped_while_loop_cons.
    change (Untyped.relativePath (untyped x)) with (relativePath x).
    change (Untyped.relativePath (untyped y)) with (relativePath y).
    change (Untyped.isDirectory (untyped x)) with (isDirectory x).
    rewrite Hlt, Hd. rewrite map_app in IH. exact IH.
  - intros Hlt Hgt IH. simpl map. rewrite untyped_while_loop_cons.
    change (Untyped.relativePath (untyped x)) with (relativePath x).
    change (Untyped.relativePath (untyped y)) with (relativePath y).
    rewrite Hlt, Hgt. rewrite map_app in IH. exact IH.
  - intros Hlt Hgt Hne Hd IH. simpl map. rewrite untyped_while_loop_cons.
    change (Untyped.relativePath (untyped x)) with (relativePath x).
    change (Untyped.relativePath (untyped y)) with (relativePath y).
    change (Untyped.isDirectory (untyped x)) with (isDirectory x).
    rewrite Hlt, Hgt, Hf, Hne, Hd. rewrite map_app in IH. exact IH.
  - intros Hlt Hgt Hne Hd IH. simpl map. rewrite untyped_while_loop_cons.
    change (Untyped.relativePath (untyped x)) with (relativePath x).
    change (Untyped.relativePath (untyped y)) with (relativePath y).
    change (Untyped.isDirectory (untyped x)) with (isDirectory x).
    rewrite Hlt, Hgt, Hf, Hne, Hd. rewrite map_app in IH. exact IH.
  - intros Hlt Hgt Heq IH. simpl map. rewrite untyped_while_loop_cons.
    change (Untyped.relativePath (untyped x)) with (relativePath x).
    change (Untyped.relativePath (untyped y)) with (relativePath y).
    rewrite Hlt, Hgt, Hf, Heq. exact IH.
Qed.

Lemma untyped_cleanup_ours ours removals :
  Untyped.cleanup_ours (map untyped ours) (map untyped_command removals) =
  map untyped_command (cleanup_ours ours removals).
Proof.
  revert removals. induction ours as [|x ours IH]; intros removals; simpl.
  - reflexivity.
  - rewrite <- IH, map_app. reflexivity.
Qed.

Lemma untyped_cleanup_theirs theirs operations :
  Untyped.cleanup_theirs (map untyped theirs) (map untyped_command operations) =
  map untyped_command (cleanup_theirs theirs operations).
Proof.
  revert operations. induction theirs as [|y theirs IH]; intros operations; simpl.
  - reflexivity.
  - rewrite <- IH, map_app. reflexivity.
Qed.

(** On entries with integer size and mtime the calculator of module
    [Untyped], under the default predicate, returns what [calculatePatch]
    returns. *)
Lemma untyped_calculatePatch (ours theirs : list Entry) :
  Untyped.calculatePatch (map untyped ours) (map untyped theirs) None =
  match calculatePatch ours theirs None with
  | Return out => Return (map untyped_command out)
  | Throw e => Throw e
  end.
Proof.
  unfold Untyped.calculatePatch, calculatePatch, Untyped.patch, patch. simpl.
  pose proof (untyped_while_loop defaultIsEqual Untyped.defaultIsEqual
                ours theirs [] [] untyped_defaultIsEqual) as H.
  simpl in H. rewrite H.
  destruct (while_loop defaultIsEqual ours theirs [] []) as [[[o t] ops] rem].
  simpl. rewrite untyped_cleanup_ours, untyped_cleanup_theirs.
  now rewrite map_app, map_rev.
Qed.
